(** * SeaweedFS read path: the FUSE handle table and the filer read handlers

    A shallow embedding of

    - [weed/filesys/wfs.go]: the open-handle table of the mounted file
      system ([AcquireHandle], [ReleaseHandle]);
    - [weed/server/filer_server_handlers_read.go]: the filer's GET/HEAD
      handler ([GetOrHeadHandler], [handleSingleChunk],
      [writeEncryptedChunk], [handleMultipleChunks]).

    Go's [int] is taken to be 64 bits wide.  Logging ([glog]) and the
    request counters ([stats]) have no effect on what the functions
    return or write, and are left out. *)

From Stdlib Require Import Strings.Ascii Strings.Byte.
From stdpp Require Import base numbers option list strings gmap fin_maps pretty.

Local Open Scope Z_scope.

(** ** Go runtime: panics and integer conversions *)

(** A Go computation either returns or panics (index out of range, nil
    dereference). *)
Inductive result (A : Type) : Type :=
  | Ok (a : A)
  | Panic.
Arguments Ok {A} a.
Arguments Panic {A}.

#[global] Instance result_ret : MRet result := λ A a, Ok a.
#[global] Instance result_bind : MBind result := λ A B k r,
  match r with
  | Ok a => k a
  | Panic => Panic
  end.

(** [uint64(i)] for an [int] (or [int64]) value [i]. *)
Definition uint64_of_int (i : Z) : Z := i `mod` 2 ^ 64.

(** [int(u)] (or [int64(u)]) for a [uint64] value [u]: two's complement. *)
Definition int_of_uint64 (u : Z) : Z :=
  if bool_decide (u < 2 ^ 63) then u else u - 2 ^ 64.

(** [s[i]] on a slice: panics when [i] is out of range. *)
Definition slice_get {A} (s : list A) (i : Z) : result A :=
  if bool_decide (0 ≤ i) then
    match s !! Z.to_nat i with
    | Some x => Ok x
    | None => Panic
    end
  else Panic.

(** [s[i] = x] on a slice: panics when [i] is out of range. *)
Definition slice_set {A} (s : list A) (i : Z) (x : A) : result (list A) :=
  if bool_decide (0 ≤ i < Z.of_nat (length s)) then Ok (<[Z.to_nat i := x]> s)
  else Panic.

(** ** [weed/filesys/wfs.go] *)

Module Wfs.

(** [File] is declared in [file.go], which is not among the sources at
    hand; the handle table uses nothing of it but [file.fullpath()]. *)
Record File := mkFile { fullpath : string }.

#[global] Instance File_eq_dec : EqDecision File.
Proof. solve_decision. Defined.

Record FileHandle := mkFileHandle {
  f : File;
  Uid : Z;
  Gid : Z;
  handle : Z  (* uint64 *)
}.

#[global] Instance FileHandle_eq_dec : EqDecision FileHandle.
Proof. solve_decision. Defined.

(** A [*FileHandle] that is not nil is the address of a [FileHandle]
    object; addresses are positions in the store of allocated objects. *)
Definition ptr := nat.

(** The part of [WFS] the handle table lives in, together with the
    [FileHandle] objects its pointers point to. *)
Record WFS := mkWFS {
  objects : list FileHandle;
  handles : list (option ptr);          (* []*FileHandle *)
  pathToHandleIndex : gmap string Z     (* map[string]int *)
}.

(** [NewSeaweedFileSystem]: no handles, an empty map. *)
Definition NewSeaweedFileSystem : WFS :=
  {| objects := []; handles := []; pathToHandleIndex := ∅ |}.

(** Modelled from the spec: [newFileHandle] is defined in
    [filehandle.go], which is not among the sources at hand.  A handle
    has a back-reference to the file it was opened against, the owning
    user and group identifiers and a numeric handle identifier, which
    the constructor leaves at Go's zero value. *)
Definition newFileHandle (file : File) (uid gid : Z) : FileHandle :=
  {| f := file; Uid := uid; Gid := gid; handle := 0 |}.

(** [fileHandle.handle = id] through the pointer [p]. *)
Definition set_handle (p : ptr) (id : Z) (objs : list FileHandle)
  : list FileHandle :=
  match objs !! p with
  | Some fh =>
      <[p := {| f := f fh; Uid := Uid fh; Gid := Gid fh; handle := id |}]> objs
  | None => objs
  end.

(** [index, found := wfs.pathToHandleIndex[fullpath]] *)
Definition map_index (wfs : WFS) (fullpath : string) : Z * bool :=
  match pathToHandleIndex wfs !! fullpath with
  | Some i => (i, true)
  | None => (0, false)
  end.

(** [found && wfs.handles[index] != nil], with Go's short-circuit. *)
Definition found_and_not_nil (wfs : WFS) (index : Z) (found : bool)
  : result bool :=
  if found then
    h ← slice_get (handles wfs) index;
    mret (bool_decide (h ≠ None))
  else mret false.

(** [for i, h := range wfs.handles { if h == nil { ... return } }] *)
Definition first_nil (hs : list (option ptr)) : option nat :=
  fst <$> list_find (λ h, h = None) hs.

Definition AcquireHandle (file : File) (uid gid : Z) (wfs : WFS)
  : result (option ptr * WFS) :=
  let fullpath := fullpath file in
  let '(index, found) := map_index wfs fullpath in
  c1 ← found_and_not_nil wfs index found;
  if c1 : bool then
    h ← slice_get (handles wfs) index;
    mret (h, wfs)
  else
  c2 ← found_and_not_nil wfs index found;
  if c2 : bool then
    (* wfs.handles[index].InitializeToFile(file, uid, gid)
       fileHandle.handle = uint64(index)
       the named result fileHandle is still nil here *)
    Panic
  else
  let fileHandle := length (objects wfs) in
  let objs := objects wfs ++ [newFileHandle file uid gid] in
  match first_nil (handles wfs) with
  | Some i =>
      mret (Some fileHandle,
            {| objects := set_handle fileHandle (uint64_of_int (Z.of_nat i)) objs;
               handles := <[i := Some fileHandle]> (handles wfs);
               pathToHandleIndex :=
                 <[fullpath := Z.of_nat i]> (pathToHandleIndex wfs) |})
  | None =>
      let hs := handles wfs ++ [Some fileHandle] in
      let id := uint64_of_int (Z.of_nat (length hs) - 1) in
      mret (Some fileHandle,
            {| objects := set_handle fileHandle id objs;
               handles := hs;
               pathToHandleIndex :=
                 <[fullpath := int_of_uint64 id]> (pathToHandleIndex wfs) |})
  end.

Definition ReleaseHandle (fullpath : string) (handleId : Z) (wfs : WFS)
  : result WFS :=
  let m := delete fullpath (pathToHandleIndex wfs) in
  if bool_decide (int_of_uint64 handleId < Z.of_nat (length (handles wfs))) then
    hs ← slice_set (handles wfs) (int_of_uint64 handleId) None;
    mret {| objects := objects wfs; handles := hs; pathToHandleIndex := m |}
  else
    mret {| objects := objects wfs; handles := handles wfs;
            pathToHandleIndex := m |}.

(** The handle identifier read through a (possibly nil) handle pointer. *)
Definition handle_id (wfs : WFS) (fh : option ptr) : option Z :=
  p ← fh; handle <$> objects wfs !! p.

(** Sequences of calls on one [WFS]. *)
Inductive Call :=
  | Acquire (file : File) (uid gid : Z)
  | Release (fullpath : string) (handleId : Z).

Definition call (c : Call) (wfs : WFS) : result WFS :=
  match c with
  | Acquire file uid gid => r ← AcquireHandle file uid gid wfs; mret r.2
  | Release fullpath handleId => ReleaseHandle fullpath handleId wfs
  end.

Fixpoint calls (cs : list Call) (wfs : WFS) : result WFS :=
  match cs with
  | [] => mret wfs
  | c :: cs => wfs' ← call c wfs; calls cs wfs'
  end.


(** Every index stored in the map is an index of the table.  It holds of
    [NewSeaweedFileSystem] and both operations keep it; without it
    [AcquireHandle] panics on [wfs.handles[index]]. *)
Definition wf (wfs : WFS) : Prop :=
  ∀ path i, pathToHandleIndex wfs !! path = Some i →
            0 ≤ i < Z.of_nat (length (handles wfs)).

(** A [Release] whose handle identifier converts to a non-negative [int]. *)
Definition call_ok (c : Call) : Prop :=
  match c with
  | Acquire _ _ _ => True
  | Release _ handleId => 0 ≤ handleId < 2 ^ 63
  end.

(** No live handle for the path (no map entry, or an entry whose slot
    is nil): the two guards fall through. *)
Definition no_live_handle (wfs : WFS) (path : string) : Prop :=
  match pathToHandleIndex wfs !! path with
  | Some index => slice_get (handles wfs) index = Ok None
  | None => True
  end.

(** *** Example states *)

(** One open file: [/a] at slot 0. *)
Definition one_open : WFS :=
  {| objects := [{| f := mkFile "/a"; Uid := 0; Gid := 0; handle := 0 |}];
     handles := [Some 0%nat];
     pathToHandleIndex := {[ "/a" := 0 ]} |}.

(** [/a] is opened twice (one shared handle, slot 1) next to [/x]
    (slot 0).  The first close of [/a] frees slot 1, which an open of
    [/b] takes over; the second close of [/a] then empties it again and
    leaves the map entry of [/b] behind; last, [/x] is closed. *)
Definition churn : list Call :=
  [ Acquire (mkFile "/x") 0 0;
    Acquire (mkFile "/a") 0 0;
    Acquire (mkFile "/a") 0 0;
    Release "/a" 1;
    Acquire (mkFile "/b") 0 0;
    Release "/a" 1;
    Release "/x" 0 ].

End Wfs.

(** ** [weed/server/filer_server_handlers_read.go] *)

Module Filer.

(** *** Go's [strings], [net/url] and [net/http], as far as the handlers
    use them *)

(** [strings.HasSuffix(s, suffix)] *)
Definition HasSuffix (s suffix : string) : bool :=
  bool_decide (String.list_ascii_of_string suffix
                 `suffix_of` String.list_ascii_of_string s).

(** [url.Values] and [http.Header] are both [map[string][]string]. *)
Abbreviation Values := (gmap string (list string)).

(** [v.Add(key, value)]: append to the values of the key. *)
Definition Add (key value : string) (v : Values) : Values :=
  <[key := default [] (v !! key) ++ [value]]> v.

(** [h.Set(key, value)]: replace the values of the key.  All keys the
    handlers set are in canonical form already. *)
Definition Set_ (key value : string) (h : Values) : Values :=
  <[key := [value]]> h.

(** [h.Get(key)]: the first value of the key, or the empty string. *)
Definition Get (key : string) (h : Values) : string :=
  match h !! key with
  | Some (value :: _) => value
  | _ => ""
  end.

(** A [*url.URL] that is not nil: the text up to the query (scheme,
    host and path), and the query by key, as [u.Query()] reads it from
    [u.RawQuery] and [u.RawQuery = q.Encode()] writes it back.
    [Encode] sorts by key and keeps the order of the values of each
    key, which is what a map to lists holds.  The text of a URL, as
    [LookupFileId] gives it and [http.Redirect] takes it, is a
    [string]; [url.Parse] makes the one from the other, or fails. *)
Record url_URL := mkURL {
  Path : string;
  RawQuery : Values
}.

#[global] Instance url_URL_eq_dec : EqDecision url_URL.
Proof. solve_decision. Defined.

Definition Query (u : url_URL) : Values := RawQuery u.

(** A body to read: the bytes that arrive, and whether reading them ends
    in an error instead of end-of-file. *)
Record Body_ := mkBody {
  data : list Byte.byte;
  broken : bool
}.

(** [ioutil.ReadAll(body)] *)
Definition ReadAll (body : Body_) : option (list Byte.byte) :=
  if broken body then None else Some (data body).

Record Request := mkRequest {
  Method : string;
  URL : url_URL;
  Proto : string;
  ProtoMajor : Z;
  ProtoMinor : Z;
  Header : Values;
  Body : Body_;
  Host : string;
  ContentLength : Z
}.

Record Response := mkResponse {
  StatusCode : Z;
  resp_Header : Values;
  resp_Body : Body_
}.

(** *** [filer2]: entries and chunks *)

Record FileChunk := mkFileChunk {
  FileId : string;
  Offset : Z;
  Size : Z;                               (* uint64 *)
  CipherKey : option (list Byte.byte);    (* []byte; None is nil *)
  ETag_ : string
}.

Record Attr_ := mkAttr {
  Mtime : Z;
  Mime : string
}.

Record Entry := mkEntry {
  FullPath : string;
  IsDirectory : bool;
  Attr : Attr_;
  Chunks : list FileChunk
}.

(** Modelled from the spec: [filer2.TotalSize] is defined in
    [filer2/filechunks.go], which is not among the sources at hand.
    "Sum of each chunk's size; returns 0 for an empty chunk list." *)
Definition TotalSize (chunks : list FileChunk) : Z :=
  foldr (λ chunk total, Size chunk + total) 0 chunks.

(** The errors of [FindEntry]: [filer2.ErrNotFound] or any other. *)
Inductive error :=
  | ErrNotFound
  | ErrOther (msg : string).

#[global] Instance error_eq_dec : EqDecision error.
Proof. solve_decision. Defined.

(** *** Byte ranges *)

Record httpRange := mkRange {
  start : Z;
  length_ : Z
}.

(** Modelled from the spec: [sumRangesSize] is defined in
    [weed/server/common.go], which is not among the sources at hand.
    "The sum of all range lengths." *)
Definition sumRangesSize (ranges : list httpRange) : Z :=
  foldr (λ ra size, length_ ra + size) 0 ranges.

(** *** What a handler does to the outside *)

(** The calls a handler makes on the response writer [w], or on behalf
    of it, other than setting a header; and the fetch it sends out. *)
Inductive Event :=
  | WriteHeader (statusCode : Z)             (* w.WriteHeader(statusCode) *)
  | Write (p : list Byte.byte)               (* w.Write(p) *)
  | Copy (src : Body_)                       (* io.Copy(w, src) *)
  | Redirect (url : string) (code : Z)       (* http.Redirect(w, r, url, code) *)
  | Error (err : string) (code : Z)          (* http.Error(w, err, code) *)
  | writeJsonError (httpStatus : Z) (err : string)
  | listDirectoryHandler                     (* fs.listDirectoryHandler(w, r) *)
  | StreamContent (chunks : list FileChunk) (offset size : Z)
                                             (* filer2.StreamContent(_, w, ...) *)
  | CopyN (ranges : list httpRange) (mimeType : string) (n : Z)
                                             (* io.CopyN(w, sendContent, n) *)
  | Do (request : Request)                   (* util.Do(request) *)
  | Close (body : Body_).                    (* drain and close resp.Body *)

(** The response writer: its header map, and the calls made so far, in
    program order. *)
Record ResponseWriter := mkW {
  w_Header : Values;
  calls : list Event
}.

Definition set_header (key value : string) (w : ResponseWriter)
  : ResponseWriter :=
  {| w_Header := Set_ key value (w_Header w); calls := calls w |}.

Definition emit (e : Event) (w : ResponseWriter) : ResponseWriter :=
  {| w_Header := w_Header w; calls := calls w ++ [e] |}.

(** *** The server and its collaborators *)

Record FilerOption := mkOption {
  RedirectOnRead : bool;
  DisableDirListing : bool
}.

(** What the handlers call and this file does not define: the metadata
    store, the master client, the volume servers, the cipher, and the
    helpers of [common.go], [filer2] and Go's library. *)
Record Collaborators := mkCollaborators {
  FindEntry : string → error + Entry;
  LookupFileId : string → option string;
  url_Parse : string → option url_URL;
  util_Do : Request → string + Response;
  Decrypt : list Byte.byte → list Byte.byte → option (list Byte.byte);
  stream_error : list FileChunk → Z → Z → option string;
  parseRange : string → Z → string + list httpRange;
  contentRange : httpRange → Z → string;
  rangesMIMESize : list httpRange → string → Z → Z;
  Boundary : string;
  copy_fails : bool;
  ETag : list FileChunk → string;
  setEtag : string → Values → Values;
  Name : Entry → string;
  path_Ext : string → string;
  TypeByExtension : string → string;
  TimeFormat : Z → string
}.

Record FilerServer := mkFilerServer {
  option_ : FilerOption;
  filer : Collaborators
}.

(** *** The handlers *)

(** [fs.writeContent(w, entry, offset, size)] *)
Definition writeContent (fs : FilerServer) (w : ResponseWriter)
    (entry : Entry) (offset size : Z) : ResponseWriter * option string :=
  (emit (StreamContent (Chunks entry) offset size) w,
   stream_error (filer fs) (Chunks entry) offset size).

Definition writeEncryptedChunk (fs : FilerServer) (w : ResponseWriter)
    (resp : Response) (entry : Entry) : result ResponseWriter :=
  chunk ← slice_get (Chunks entry) 0;
  match ReadAll (resp_Body resp) with
  | None => mret (emit (WriteHeader 404) w)
  | Some encryptedData =>
      match Decrypt (filer fs) encryptedData (default [] (CipherKey chunk)) with
      | None => mret (emit (WriteHeader 404) w)
      | Some decryptedData =>
          let w := set_header "Content-Length" (pretty (Size chunk)) w in
          let w := emit (WriteHeader (StatusCode resp)) w in
          mret (emit (Write decryptedData) w)
      end
  end.

(** The query of the proxied request: the values of the resolved URL,
    with each value of the original request added to its key. *)
Definition proxy_query (u : url_URL) (r : Request) : Values :=
  map_fold (λ key values q, foldl (λ q value, Add key value q) q values)
           (Query u) (Query (URL r)).

Definition handleSingleChunk (fs : FilerServer) (w : ResponseWriter)
    (r : Request) (entry : Entry) : result ResponseWriter :=
  chunk ← slice_get (Chunks entry) 0;
  let fileId := FileId chunk in
  match LookupFileId (filer fs) fileId with
  | None => mret (emit (WriteHeader 404) w)
  | Some urlString =>
      if RedirectOnRead (option_ fs) && bool_decide (CipherKey chunk = None)
      then mret (emit (Redirect urlString 302) w)
      else
        (* u, _ := url.Parse(urlString); q := u.Query()
           the error is dropped: after a failed parse u is nil and
           u.Query() dereferences it *)
        match url_Parse (filer fs) urlString with
        | None => Panic
        | Some u =>
            let u := {| Path := Path u; RawQuery := proxy_query u r |} in
            let request :=
              {| Method := Method r; URL := u; Proto := Proto r;
                 ProtoMajor := ProtoMajor r; ProtoMinor := ProtoMinor r;
                 Header := Header r; Body := Body r; Host := Host r;
                 ContentLength := ContentLength r |} in
            let w := emit (Do request) w in
            match util_Do (filer fs) request with
            | inl do_err => mret (emit (writeJsonError 500 do_err) w)
            | inr resp =>
                let w :=
                  {| w_Header :=
                       map_fold (λ k v h, <[k := v]> h) (w_Header w)
                                (resp_Header resp);
                     calls := calls w |} in
                let w :=
                  if bool_decide (Mime (Attr entry) ≠ "")
                  then set_header "Content-Type" (Mime (Attr entry)) w
                  else w in
                w ← (if bool_decide (CipherKey chunk = None) then
                       let w := emit (WriteHeader (StatusCode resp)) w in
                       mret (emit (Copy (resp_Body resp)) w)
                     else writeEncryptedChunk fs w resp entry);
                (* the deferred function *)
                mret (emit (Close (resp_Body resp)) w)
            end
        end
  end.

Definition handleMultipleChunks (fs : FilerServer) (w : ResponseWriter)
    (r : Request) (entry : Entry) : result ResponseWriter :=
  let mimeType := Mime (Attr entry) in
  let mimeType :=
    if bool_decide (mimeType = "") then
      let ext := path_Ext (filer fs) (Name (filer fs) entry) in
      if bool_decide (ext ≠ "") then TypeByExtension (filer fs) ext
      else mimeType
    else mimeType in
  let w :=
    if bool_decide (mimeType ≠ "") then set_header "Content-Type" mimeType w
    else w in
  let w :=
    {| w_Header := setEtag (filer fs) (ETag (filer fs) (Chunks entry))
                     (w_Header w);
       calls := calls w |} in
  let totalSize := int_of_uint64 (TotalSize (Chunks entry)) in
  let rangeReq := Get "Range" (Header r) in
  if bool_decide (rangeReq = "") then
    let w := set_header "Content-Length" (pretty totalSize) w in
    let '(w, err) := writeContent fs w entry 0 totalSize in
    match err with
    | Some err => mret (emit (Error err 500) w)
    | None => mret w
    end
  else
  match parseRange (filer fs) rangeReq totalSize with
  | inl err => mret (emit (Error err 416) w)
  | inr ranges =>
      if bool_decide (sumRangesSize ranges > totalSize) then mret w
      else if bool_decide (length ranges = 0%nat) then mret w
      else if bool_decide (length ranges = 1%nat) then
        ra ← slice_get ranges 0;
        let w := set_header "Content-Length" (pretty (length_ ra)) w in
        let w :=
          set_header "Content-Range" (contentRange (filer fs) ra totalSize) w in
        let w := emit (WriteHeader 206) w in
        let '(w, err) := writeContent fs w entry (start ra) (length_ ra) in
        match err with
        | Some err => mret (emit (Error err 500) w)
        | None => mret w
        end
      else
        if existsb (λ ra, bool_decide (start ra > totalSize)) ranges
        then mret (emit (Error "Out of Range" 416) w)
        else
          let sendSize := rangesMIMESize (filer fs) ranges mimeType totalSize in
          let w :=
            set_header "Content-Type"
              ("multipart/byteranges; boundary=" +:+ Boundary (filer fs)) w in
          let w :=
            if bool_decide (Get "Content-Encoding" (w_Header w) = "")
            then set_header "Content-Length" (pretty sendSize) w else w in
          let w := emit (WriteHeader 206) w in
          let w := emit (CopyN ranges mimeType sendSize) w in
          if copy_fails (filer fs)
          then mret (emit (Error "Internal Error" 500) w)
          else mret w
  end.

Definition GetOrHeadHandler (fs : FilerServer) (w : ResponseWriter)
    (r : Request) (isGetMethod : bool) : result ResponseWriter :=
  let path := Path (URL r) in
  let isForDirectory := HasSuffix path "/" in
  let path :=
    if isForDirectory && bool_decide (1 < String.length path)%nat
    then String.substring 0 (String.length path - 1) path
    else path in
  match FindEntry (filer fs) path with
  | inl err =>
      if bool_decide (path = "/") then mret (emit listDirectoryHandler w)
      else if bool_decide (err = ErrNotFound)
      then mret (emit (WriteHeader 404) w)
      else mret (emit (WriteHeader 500) w)
  | inr entry =>
      if IsDirectory entry then
        if DisableDirListing (option_ fs)
        then mret (emit (WriteHeader 405) w)
        else mret (emit listDirectoryHandler w)
      else if isForDirectory then mret (emit (WriteHeader 404) w)
      else if bool_decide (length (Chunks entry) = 0%nat)
      then mret (emit (WriteHeader 204) w)
      else
        let w := set_header "Accept-Ranges" "bytes" w in
        if bool_decide (Method r = "HEAD") then
          let w :=
            set_header "Content-Length"
              (pretty (int_of_uint64 (TotalSize (Chunks entry)))) w in
          let w :=
            set_header "Last-Modified"
              (TimeFormat (filer fs) (Mtime (Attr entry))) w in
          let w :=
            if bool_decide (Mime (Attr entry) ≠ "")
            then set_header "Content-Type" (Mime (Attr entry)) w else w in
          mret {| w_Header := setEtag (filer fs) (ETag (filer fs) (Chunks entry))
                                (w_Header w);
                  calls := calls w |}
        else if bool_decide (length (Chunks entry) = 1%nat)
        then handleSingleChunk fs w r entry
        else handleMultipleChunks fs w r entry
  end.

(** *** Names for what the handlers compute along the way *)

(** The path [GetOrHeadHandler] looks up: [r.URL.Path] without its
    trailing slash, unless it is the slash alone. *)
Definition lookup_path (r : Request) : string :=
  let path := Path (URL r) in
  if HasSuffix path "/" && bool_decide (1 < String.length path)%nat
  then String.substring 0 (String.length path - 1) path
  else path.

(** The request [handleSingleChunk] sends to the volume server, [u]
    being the resolved URL as parsed. *)
Definition proxy_request (u : url_URL) (r : Request) : Request :=
  {| Method := Method r;
     URL := {| Path := Path u; RawQuery := proxy_query u r |};
     Proto := Proto r; ProtoMajor := ProtoMajor r; ProtoMinor := ProtoMinor r;
     Header := Header r; Body := Body r; Host := Host r;
     ContentLength := ContentLength r |}.

(** The header map after [for k, v := range resp.Header { w.Header()[k] = v }]
    and the [Content-Type] of the entry, if it has one. *)
Definition proxy_headers (w : ResponseWriter) (resp : Response)
    (entry : Entry) : ResponseWriter :=
  let w :=
    {| w_Header :=
         map_fold (λ k v h, <[k := v]> h) (w_Header w) (resp_Header resp);
       calls := calls w |} in
  if bool_decide (Mime (Attr entry) ≠ "")
  then set_header "Content-Type" (Mime (Attr entry)) w else w.

(** *** The range parser *)

Module RangeParser.

Definition is_digit (c : Ascii.ascii) : bool :=
  (48 <=? Ascii.nat_of_ascii c)%nat && (Ascii.nat_of_ascii c <=? 57)%nat.

Definition is_space (c : Ascii.ascii) : bool :=
  bool_decide (c = " "%char) || bool_decide (c = "009"%char).

Fixpoint digits (acc : Z) (s : list Ascii.ascii) : option Z :=
  match s with
  | [] => Some acc
  | c :: s =>
      if is_digit c
      then digits (10 * acc + (Z.of_nat (Ascii.nat_of_ascii c) - 48)) s
      else None
  end.

(** A non-empty run of decimal digits; a sign is not accepted. *)
Definition number (s : list Ascii.ascii) : option Z :=
  match s with
  | [] => None
  | _ => digits 0 s
  end.

Fixpoint drop_spaces (s : list Ascii.ascii) : list Ascii.ascii :=
  match s with
  | c :: s' => if is_space c then drop_spaces s' else s
  | [] => []
  end.

Definition trim (s : list Ascii.ascii) : list Ascii.ascii :=
  reverse (drop_spaces (reverse (drop_spaces s))).

(** Split at the first occurrence of [sep]. *)
Fixpoint cut (sep : Ascii.ascii) (s : list Ascii.ascii)
  : option (list Ascii.ascii * list Ascii.ascii) :=
  match s with
  | [] => None
  | c :: s =>
      if bool_decide (c = sep) then Some ([], s)
      else '(before, after) ← cut sep s; Some (c :: before, after)
  end.

(** Split at every occurrence of [sep]. *)
Fixpoint split (sep : Ascii.ascii) (s : list Ascii.ascii)
  : list (list Ascii.ascii) :=
  match s with
  | [] => [[]]
  | c :: s =>
      if bool_decide (c = sep) then [] :: split sep s
      else match split sep s with
           | piece :: pieces => (c :: piece) :: pieces
           | [] => [[c]]
           end
  end.

Inductive item :=
  | Malformed
  | Dropped
  | Kept (ra : httpRange).

(** One range of the header: [start-end], [start-] or [-suffixLength]. *)
Definition parse_item (text : list Ascii.ascii) (size : Z) : item :=
  match cut "-"%char text with
  | None => Malformed
  | Some (first, last) =>
      let first := trim first in
      let last := trim last in
      match first with
      | [] =>
          match number last with
          | None => Malformed
          | Some n =>
              if bool_decide (n ≤ 0) then Malformed
              else
                let n := Z.min n size in
                if bool_decide (size ≤ size - n) then Dropped
                else Kept {| start := size - n; length_ := n |}
          end
      | _ =>
          match number first with
          | None => Malformed
          | Some i =>
              match last with
              | [] =>
                  if bool_decide (size ≤ i) then Dropped
                  else Kept {| start := i; length_ := size - i |}
              | _ =>
                  match number last with
                  | None => Malformed
                  | Some j =>
                      if bool_decide (i > j) then Malformed
                      else if bool_decide (size ≤ i) then Dropped
                      else Kept {| start := i;
                                   length_ := Z.min j (size - 1) - i + 1 |}
                  end
              end
          end
      end
  end.

Fixpoint parse_items (texts : list (list Ascii.ascii)) (size : Z)
  : option (list httpRange * bool) :=
  match texts with
  | [] => Some ([], false)
  | text :: texts =>
      '(ranges, dropped) ← parse_items texts size;
      match trim text with
      | [] => Some (ranges, dropped)
      | text =>
          match parse_item text size with
          | Malformed => None
          | Dropped => Some (ranges, true)
          | Kept ra => Some (ra :: ranges, dropped)
          end
      end
  end.

(** Modelled from the spec: [parseRange] is defined in
    [weed/server/common.go], which is not among the sources at hand.
    The header must use the [bytes] unit, and anything malformed is a
    failure; a range is [start-end] (end inclusive, and cut at the last
    byte), [start-] or [-suffixLength]; a suffix length that is
    negative or zero is a failure; a range that starts at or after the
    total size is dropped, and if that leaves none of the ranges given,
    parsing fails. *)
Definition parseRange (s : string) (size : Z) : string + list httpRange :=
  let text := String.list_ascii_of_string s in
  let unit := String.list_ascii_of_string "bytes=" in
  if bool_decide (unit `prefix_of` text) then
    match parse_items (split ","%char (drop (length unit) text)) size with
    | None => inl "invalid range"
    | Some ([], true) => inl "invalid range: failed to overlap"
    | Some (ranges, _) => inr ranges
    end
  else inl "invalid range".

End RangeParser.

(** *** Example servers, entries and requests *)

Module Demo.

Definition chunk (fileId : string) (offset size : Z)
    (key : option (list Byte.byte)) : FileChunk :=
  {| FileId := fileId; Offset := offset; Size := size; CipherKey := key;
     ETag_ := "" |}.

Definition file (path : string) (chunks : list FileChunk) : Entry :=
  {| FullPath := path; IsDirectory := false;
     Attr := {| Mtime := 0; Mime := "" |}; Chunks := chunks |}.

Definition directory (path : string) : Entry :=
  {| FullPath := path; IsDirectory := true;
     Attr := {| Mtime := 0; Mime := "" |}; Chunks := [] |}.

Definition empty_file : Entry := file "/empty" [].
Definition plain_file : Entry := file "/plain" [chunk "3,01" 0 5 None].
Definition secret_file : Entry :=
  file "/secret" [chunk "3,02" 0 5 (Some ["k"%byte])].
Definition big_file : Entry :=
  file "/big" [chunk "3,03" 0 3 None; chunk "3,04" 3 2 None].

(** An example of [url.Parse], enough for the URLs of the examples: a
    text with a control character is refused (as Go does); otherwise
    the text is cut at the first [?], and what follows is read as
    [key=value] pairs separated by [&].  Escapes are not decoded and a
    fragment is not cut off. *)
Definition is_control (c : Ascii.ascii) : bool :=
  (Ascii.nat_of_ascii c <? 32)%nat || (Ascii.nat_of_ascii c =? 127)%nat.

Definition parse_pair (q : Values) (pair : list Ascii.ascii) : Values :=
  match pair with
  | [] => q
  | _ =>
      match RangeParser.cut "="%char pair with
      | Some (key, value) =>
          Add (String.string_of_list_ascii key)
              (String.string_of_list_ascii value) q
      | None => Add (String.string_of_list_ascii pair) "" q
      end
  end.

Definition parse_url (text : string) : option url_URL :=
  let bytes := String.list_ascii_of_string text in
  if existsb is_control bytes then None
  else
    match RangeParser.cut "?"%char bytes with
    | Some (path, query) =>
        Some {| Path := String.string_of_list_ascii path;
                RawQuery :=
                  foldl parse_pair ∅ (RangeParser.split "&"%char query) |}
    | None => Some {| Path := text; RawQuery := ∅ |}
    end.

Definition entries : gmap string Entry :=
  {[ "/empty" := empty_file; "/plain" := plain_file;
     "/secret" := secret_file; "/big" := big_file;
     "/dir" := directory "/dir" ]}.

(** A volume server that answers every fetch with 200 and five bytes,
    which do not decrypt; a metadata store holding [entries]; the range
    parser of the spec. *)
Definition collaborators : Collaborators :=
  {| FindEntry path :=
       match entries !! path with
       | Some entry => inr entry
       | None => inl ErrNotFound
       end;
     LookupFileId fileId := Some ("http://127.0.0.1:8080/" +:+ fileId);
     url_Parse := parse_url;
     util_Do request :=
       inr {| StatusCode := 200; resp_Header := ∅;
              resp_Body := {| data := ["h"; "e"; "l"; "l"; "o"]%byte;
                              broken := false |} |};
     Decrypt encrypted key := None;
     stream_error chunks offset size := None;
     parseRange := RangeParser.parseRange;
     contentRange ra size := "";
     rangesMIMESize ranges mimeType size := 0;
     Boundary := "";
     copy_fails := false;
     ETag chunks := "";
     setEtag etag h := h;
     Name entry := FullPath entry;
     path_Ext name := "";
     TypeByExtension ext := "";
     TimeFormat t := "" |}.

Definition server (redirect : bool) : FilerServer :=
  {| option_ := {| RedirectOnRead := redirect; DisableDirListing := false |};
     filer := collaborators |}.

(** Answers of a volume server: the five bytes of a chunk, and a
    redirect to another place. *)
Definition hello : Response :=
  {| StatusCode := 200; resp_Header := ∅;
     resp_Body := {| data := ["h"; "e"; "l"; "l"; "o"]%byte;
                     broken := false |} |}.
Definition moved : Response :=
  {| StatusCode := 302;
     resp_Header := {[ "Location" := ["http://127.0.0.1:8081/3,02"] ]};
     resp_Body := {| data := ["h"; "e"; "l"; "l"; "o"]%byte;
                     broken := false |} |}.

(** The same server with another master client and other volume
    servers: [lookup] resolves the file identifiers, every fetch is
    answered with [answer], and [Decrypt] succeeds (and gives the bytes
    back as they are) or fails. *)
Definition server_with (redirect : bool) (lookup : string → option string)
    (answer : Response) (decrypts : bool) : FilerServer :=
  {| option_ := {| RedirectOnRead := redirect; DisableDirListing := false |};
     filer :=
       {| FindEntry := FindEntry collaborators;
          LookupFileId := lookup;
          url_Parse := url_Parse collaborators;
          util_Do request := inr answer;
          Decrypt encrypted key := if decrypts then Some encrypted else None;
          stream_error := stream_error collaborators;
          parseRange := parseRange collaborators;
          contentRange := contentRange collaborators;
          rangesMIMESize := rangesMIMESize collaborators;
          Boundary := Boundary collaborators;
          copy_fails := copy_fails collaborators;
          ETag := ETag collaborators;
          setEtag := setEtag collaborators;
          Name := Name collaborators;
          path_Ext := path_Ext collaborators;
          TypeByExtension := TypeByExtension collaborators;
          TimeFormat := TimeFormat collaborators |} |}.

(** A metadata store that is down: every lookup fails, and not with
    [ErrNotFound]. *)
Definition store_down : FilerServer :=
  {| option_ := {| RedirectOnRead := false; DisableDirListing := false |};
     filer :=
       {| FindEntry path := inl (ErrOther "connection refused");
          LookupFileId := LookupFileId collaborators;
          url_Parse := url_Parse collaborators;
          util_Do := util_Do collaborators;
          Decrypt := Decrypt collaborators;
          stream_error := stream_error collaborators;
          parseRange := parseRange collaborators;
          contentRange := contentRange collaborators;
          rangesMIMESize := rangesMIMESize collaborators;
          Boundary := Boundary collaborators;
          copy_fails := copy_fails collaborators;
          ETag := ETag collaborators;
          setEtag := setEtag collaborators;
          Name := Name collaborators;
          path_Ext := path_Ext collaborators;
          TypeByExtension := TypeByExtension collaborators;
          TimeFormat := TimeFormat collaborators |} |}.

Definition request (method path : string) (query header : Values) : Request :=
  {| Method := method; URL := {| Path := path; RawQuery := query |};
     Proto := "HTTP/1.1"; ProtoMajor := 1; ProtoMinor := 1;
     Header := header; Body := {| data := []; broken := false |};
     Host := "filer"; ContentLength := 0 |}.

(** A response writer nothing was done to yet. *)
Definition w0 : ResponseWriter := {| w_Header := ∅; calls := [] |}.

End Demo.

End Filer.

(** ** More of [weed/filesys/wfs.go]: what holds of the handle table *)

Module HandleTable.
Import Wfs.

(** Every handle in the table carries the index of its slot as its
    identifier. *)
Definition slots_carry_index (wfs : WFS) : Prop :=
  ∀ i p, handles wfs !! i = Some (Some p) →
         handle <$> objects wfs !! p = Some (Z.of_nat i).

(** The number of [AcquireHandle] calls in a sequence. *)
Fixpoint acquires (cs : list Call) : nat :=
  match cs with
  | [] => 0
  | Acquire _ _ _ :: cs => S (acquires cs)
  | Release _ _ :: cs => acquires cs
  end.

(** Two free slots, at 0 and 2, around the handle of [/a]. *)
Definition gaps : WFS :=
  {| objects := [{| f := mkFile "/a"; Uid := 0; Gid := 0; handle := 1 |}];
     handles := [None; Some 0%nat; None];
     pathToHandleIndex := {[ "/a" := 1 ]} |}.

End HandleTable.

(** ** [weed/filesys/wfs.go]: the pool of connections to the filer *)

Module FilerClient.

(** A goroutine that runs alone either returns, or stops in a fatal
    error, or blocks for good on a mutex that is never unlocked. *)
Inductive outcome (A : Type) : Type :=
  | Returns (a : A)
  | Fatal
  | Blocks.
Arguments Returns {A} a.
Arguments Fatal {A}.
Arguments Blocks {A}.

#[global] Instance outcome_ret : MRet outcome := λ A a, Returns a.
#[global] Instance outcome_bind : MBind outcome := λ A B k o,
  match o with
  | Returns a => k a
  | Fatal => Fatal
  | Blocks => Blocks
  end.

(** A [*grpc.ClientConn]; connections are told apart by a number. *)
Definition ClientConn := nat.

(** The part of [WFS] the pool lives in: the address of the filer (from
    [wfs.option]), the connections by address, and whether the mutex
    guarding them is held.  [dialled] lists the addresses
    [util.GrpcDial] was called with, oldest first. *)
Record WFS := mkWFS {
  FilerGrpcAddress : string;
  grpcClients : gmap string ClientConn;
  grpcClientsLock : bool;
  dialled : list string
}.

(** [wfs.grpcClientsLock.Lock()] *)
Definition Lock (wfs : WFS) : outcome WFS :=
  if grpcClientsLock wfs then Blocks
  else mret {| FilerGrpcAddress := FilerGrpcAddress wfs;
               grpcClients := grpcClients wfs;
               grpcClientsLock := true;
               dialled := dialled wfs |}.

(** [wfs.grpcClientsLock.Unlock()]; unlocking a mutex that is not locked
    is a fatal error. *)
Definition Unlock (wfs : WFS) : outcome WFS :=
  if grpcClientsLock wfs then
    mret {| FilerGrpcAddress := FilerGrpcAddress wfs;
            grpcClients := grpcClients wfs;
            grpcClientsLock := false;
            dialled := dialled wfs |}
  else Fatal.

(** [withFilerClient].  [GrpcDial] is what [util.GrpcDial] answers at
    the time of the call: an error text or a connection.  [fn] is any
    code: it gets the client of a connection, runs on the state as
    [withFilerClient] leaves it and returns an error or nil. *)
Definition withFilerClient
    (GrpcDial : string → string + ClientConn)
    (fn : ClientConn → WFS → outcome (option string * WFS))
    (wfs : WFS) : outcome (option string * WFS) :=
  wfs ← Lock wfs;
  match grpcClients wfs !! FilerGrpcAddress wfs with
  | Some existingConnection =>
      wfs ← Unlock wfs;
      fn existingConnection wfs
  | None =>
      let wfs :=
        {| FilerGrpcAddress := FilerGrpcAddress wfs;
           grpcClients := grpcClients wfs;
           grpcClientsLock := grpcClientsLock wfs;
           dialled := dialled wfs ++ [FilerGrpcAddress wfs] |} in
      match GrpcDial (FilerGrpcAddress wfs) with
      | inl err =>
          wfs ← Unlock wfs;
          mret (Some ("fail to dial " +:+ FilerGrpcAddress wfs +:+ ": " +:+ err),
                wfs)
      | inr grpcConnection =>
          let wfs :=
            {| FilerGrpcAddress := FilerGrpcAddress wfs;
               grpcClients :=
                 <[FilerGrpcAddress wfs := grpcConnection]> (grpcClients wfs);
               grpcClientsLock := grpcClientsLock wfs;
               dialled := dialled wfs |} in
          wfs ← Unlock wfs;
          fn grpcConnection wfs
      end
  end.

(** A pool without connections, as [NewSeaweedFileSystem] makes it. *)
Definition fresh (address : string) : WFS :=
  {| FilerGrpcAddress := address; grpcClients := ∅;
     grpcClientsLock := false; dialled := [] |}.

(** Example: a filer that accepts connections, one that refuses them,
    and a callback that reports which connection it was given. *)
Definition accepts (address : string) : string + ClientConn := inr 7%nat.
Definition refuses (address : string) : string + ClientConn :=
  inl "connection refused".
Definition report (conn : ClientConn) (wfs : WFS)
  : outcome (option string * WFS) :=
  mret (Some (pretty conn), wfs).

End FilerClient.

(** ** The mount command ([weed/command/mount_std.go]) *)

Module Mount.

(** *** Go's library, as far as the command uses it *)

(** [strings.Split(s, sep)] for a separator of one byte. *)
Definition Split (s : string) (sep : Ascii.ascii) : list string :=
  String.string_of_list_ascii <$>
    Filer.RangeParser.split sep (String.list_ascii_of_string s).

(** [strconv.ParseUint(s, 10, 64)]: a non-empty run of decimal digits
    whose value fits 64 bits; no sign, no underscore. *)
Definition ParseUint (s : string) : option Z :=
  n ← Filer.RangeParser.number (String.list_ascii_of_string s);
  if bool_decide (n < 2 ^ 64) then Some n else None.

(** [a + b] on [int]: two's complement, 64 bits. *)
Definition int_add (a b : Z) : Z := (a + b + 2 ^ 63) `mod` 2 ^ 64 - 2 ^ 63.

(** [int32(i)] for an [int]. *)
Definition int32_of_int (i : Z) : Z := (i + 2 ^ 31) `mod` 2 ^ 32 - 2 ^ 31.

(** *** [parseFilerGrpcAddress] *)

(** The two errors: the text is not [hostname:port], or the port is not
    a number. *)
Inductive error :=
  | NotHostnamePort (hostnameAndPort : list string)
  | PortParseError (port : string).

Definition parseFilerGrpcAddress (filer : string) (optionalGrpcPort : Z)
  : error + string :=
  let hostnameAndPort := Split filer ":" in
  match hostnameAndPort with
  | [hostname; port] =>
      match ParseUint port with
      | None => inl (PortParseError port)
      | Some filerPort =>
          let filerGrpcPort := int_add (int_of_uint64 filerPort) 10000 in
          let filerGrpcPort :=
            if bool_decide (optionalGrpcPort ≠ 0) then optionalGrpcPort
            else filerGrpcPort in
          inr (hostname +:+ ":" +:+ pretty filerGrpcPort)
      end
  | _ => inl (NotHostnamePort hostnameAndPort)    (* len != 2 *)
  end.

(** *** [runMount] *)

Record MountOptions := mkMountOptions {
  filer : string;
  filerGrpcPort : Z;
  filerMountRootPath : string;
  dir : string;
  collection : string;
  replication : string;
  ttlSec : Z;
  chunkSizeLimitMB : Z;
  dataCenter : string
}.

(** The three texts [runMount] prints: the version line, "Please
    specify the mount directory via -dir", "Please specify a reasonable
    buffer size." *)
Inductive text :=
  | version_line
  | specify_dir
  | specify_buffer_size.

(** What [runMount] does to the outside, in program order. *)
Inductive Event :=
  | Printf (format : text)
  | Unmount (dir : string)                    (* fuse.Unmount(dir) *)
  | FuseMount (dir : string)                  (* fuse.Mount(dir, ...) *)
  | OnInterrupt                               (* util.OnInterrupt(func) *)
  | Serve (filerGrpcAddress filerMountRootPath collection replication : string)
          (ttlSec chunkSizeLimitMB : Z) (dataCenter : string)
                               (* fs.Serve(c, NewSeaweedFileSystem(...)) *)
  | Ready                                     (* <-c.Ready *)
  | glog_Fatal.                               (* glog.Fatal(err) *)

(** [runMount] returns a boolean, unless [glog.Fatal] ends the process. *)
Inductive exit :=
  | Return (ok : bool)
  | Exit.

(** What the FUSE library answers: the error of [fuse.Mount], the error
    of [fs.Serve], and [c.MountError] once [c.Ready] is closed; [None]
    is nil. *)
Record Fuse := mkFuse {
  Mount_err : option string;
  Serve_err : option string;
  MountError : option string
}.

Definition runMount (mountOptions : MountOptions) (fuse : Fuse)
  : list Event * exit :=
  let t := [Printf version_line] in
  if bool_decide (dir mountOptions = "") then
    (t ++ [Printf specify_dir], Return false)
  else if bool_decide (chunkSizeLimitMB mountOptions ≤ 0) then
    (t ++ [Printf specify_buffer_size], Return false)
  else
  let t := t ++ [Unmount (dir mountOptions)] in
  let t := t ++ [FuseMount (dir mountOptions)] in
  match Mount_err fuse with
  | Some err => (t ++ [glog_Fatal], Exit)
  | None =>
      let t := t ++ [OnInterrupt] in
      match parseFilerGrpcAddress (filer mountOptions)
              (filerGrpcPort mountOptions) with
      | inl err => (t ++ [glog_Fatal], Exit)
      | inr filerGrpcAddress =>
          let t :=
            t ++ [Serve filerGrpcAddress (filerMountRootPath mountOptions)
                    (collection mountOptions) (replication mountOptions)
                    (int32_of_int (ttlSec mountOptions))
                    (chunkSizeLimitMB mountOptions)
                    (dataCenter mountOptions)] in
          let t :=
            match Serve_err fuse with
            | Some err => t ++ [Unmount (dir mountOptions)]
            | None => t
            end in
          let t := t ++ [Ready] in
          match MountError fuse with
          | Some err => (t ++ [glog_Fatal], Exit)
          | None => (t, Return true)
          end
      end
  end.

(** Example options. *)
Definition options (filer dir : string) (chunkSizeLimitMB : Z)
  : MountOptions :=
  {| filer := filer; filerGrpcPort := 0; filerMountRootPath := "/";
     dir := dir; collection := ""; replication := ""; ttlSec := 0;
     chunkSizeLimitMB := chunkSizeLimitMB; dataCenter := "" |}.

End Mount.

(** ** More of [weed/server/filer_server_handlers_read.go] *)

Module ReadPath.
Import Filer.

(** The [mimeType] of [handleMultipleChunks]: the entry's, or else the
    one of the extension of its name, if it has one. *)
Definition mimeType (fs : FilerServer) (entry : Entry) : string :=
  if bool_decide (Mime (Attr entry) = "") then
    let ext := path_Ext (filer fs) (Name (filer fs) entry) in
    if bool_decide (ext ≠ "") then TypeByExtension (filer fs) ext
    else Mime (Attr entry)
  else Mime (Attr entry).

(** The [totalSize] of [handleMultipleChunks]. *)
Definition totalSize (entry : Entry) : Z :=
  int_of_uint64 (TotalSize (Chunks entry)).

(** The statuses [GetOrHeadHandler] writes of its own accord. *)
Definition own_status (code : Z) : Prop :=
  code = 204 ∨ code = 206 ∨ code = 404 ∨ code = 405 ∨ code = 500.

(** A volume server that answers with headers of its own. *)
Definition volume_headers : Values :=
  {[ "Content-Type" := ["application/octet-stream"];
     "Content-Length" := ["21"];
     "Etag" := ["abc"] ]}.

Definition answering (decrypts : bool) : FilerServer :=
  {| option_ := {| RedirectOnRead := false; DisableDirListing := false |};
     filer :=
       {| FindEntry := FindEntry Demo.collaborators;
          LookupFileId := LookupFileId Demo.collaborators;
          url_Parse := url_Parse Demo.collaborators;
          util_Do request :=
            inr {| StatusCode := 200; resp_Header := volume_headers;
                   resp_Body := {| data := ["h"; "e"; "l"; "l"; "o"]%byte;
                                   broken := false |} |};
          Decrypt encrypted key := if decrypts then Some encrypted else None;
          stream_error := stream_error Demo.collaborators;
          parseRange := parseRange Demo.collaborators;
          contentRange := contentRange Demo.collaborators;
          rangesMIMESize := rangesMIMESize Demo.collaborators;
          Boundary := Boundary Demo.collaborators;
          copy_fails := copy_fails Demo.collaborators;
          ETag := ETag Demo.collaborators;
          setEtag := setEtag Demo.collaborators;
          Name := Name Demo.collaborators;
          path_Ext := path_Ext Demo.collaborators;
          TypeByExtension := TypeByExtension Demo.collaborators;
          TimeFormat := TimeFormat Demo.collaborators |} |}.

(** A file of one plain chunk that has a mime type. *)
Definition picture : Entry :=
  {| FullPath := "/picture"; IsDirectory := false;
     Attr := {| Mtime := 0; Mime := "image/png" |};
     Chunks := [Demo.chunk "3,05" 0 5 None] |}.

(** A master client that hands out locations with a line feed in front:
    [url.Parse] refuses a text with a control character. *)
Definition garbled : FilerServer :=
  Demo.server_with false (λ fileId, Some (String "010"%char fileId))
    Demo.hello true.

(** A server that answers no location and whose volume servers and
    cipher differ from those of [Demo.server]; the metadata store, the
    options and the formats are the same. *)
Definition detached (redirect : bool) : FilerServer :=
  Demo.server_with redirect (λ _, None) Demo.moved true.

End ReadPath.

(** * Properties of the handle table *)

Section handle_table.
Import Wfs.

(** *** Conversions on values in range *)

Lemma uint64_of_int_id i : 0 ≤ i < 2 ^ 64 → uint64_of_int i = i.
Proof. intros H. unfold uint64_of_int. by apply Z.mod_small. Qed.

Lemma int_of_uint64_id u : u < 2 ^ 63 → int_of_uint64 u = u.
Proof. intros H. unfold int_of_uint64. by rewrite bool_decide_eq_true_2. Qed.

Lemma int_of_uint64_neg u : 2 ^ 63 ≤ u < 2 ^ 64 → int_of_uint64 u < 0.
Proof.
  intros H. unfold int_of_uint64. rewrite bool_decide_eq_false_2; lia.
Qed.

Lemma slice_get_Ok {A} (s : list A) i x :
  slice_get s i = Ok x ↔ 0 ≤ i ∧ s !! Z.to_nat i = Some x.
Proof.
  unfold slice_get. destruct (bool_decide_reflect (0 ≤ i)) as [Hi|Hi].
  - destruct (s !! Z.to_nat i) as [y|]; split.
    + by intros [= ->].
    + by intros [_ [= ->]].
    + done.
    + by intros [_ ?].
  - split; [done | by intros [? _]].
Qed.

(** *** The scan for a free slot *)

Lemma first_nil_Some hs i :
  first_nil hs = Some i ↔
  hs !! i = Some None ∧ ∀ j, (j < i)%nat → hs !! j ≠ Some None.
Proof.
  unfold first_nil. split.
  - intros H. apply fmap_Some in H as [[i' h] [H ->]].
    apply list_find_Some in H as (Hi & -> & Hlt). simpl. split; [done|].
    intros j Hj Hn. by apply (Hlt j None).
  - intros [Hi Hlt]. apply fmap_Some. exists (i, None). split; [|done].
    apply list_find_Some. split_and!; [done..|].
    intros j y Hy Hj ->. by apply (Hlt j).
Qed.

Lemma first_nil_None hs :
  first_nil hs = None ↔ ∀ i, hs !! i ≠ Some None.
Proof.
  unfold first_nil. rewrite fmap_None, list_find_None, Forall_lookup.
  split.
  - intros H i Hi. by apply (H i None).
  - intros H i x Hi ->. by apply (H i).
Qed.

Lemma first_nil_lt hs i : first_nil hs = Some i → (i < length hs)%nat.
Proof. intros [H _]%first_nil_Some. by apply lookup_lt_Some in H. Qed.

(** *** The three ways [AcquireHandle] returns *)

(** A live handle for the path: the stored pointer comes back and
    nothing changes. *)
Lemma AcquireHandle_live file uid gid wfs index p :
  pathToHandleIndex wfs !! fullpath file = Some index →
  slice_get (handles wfs) index = Ok (Some p) →
  AcquireHandle file uid gid wfs = Ok (Some p, wfs).
Proof.
  intros Hm Hs. unfold AcquireHandle, map_index, found_and_not_nil.
  rewrite Hm. simpl. rewrite Hs. done.
Qed.

Lemma AcquireHandle_first_nil file uid gid wfs i :
  no_live_handle wfs (fullpath file) →
  first_nil (handles wfs) = Some i →
  AcquireHandle file uid gid wfs =
    let fileHandle := length (objects wfs) in
    Ok (Some fileHandle,
        {| objects :=
             set_handle fileHandle (uint64_of_int (Z.of_nat i))
               (objects wfs ++ [newFileHandle file uid gid]);
           handles := <[i := Some fileHandle]> (handles wfs);
           pathToHandleIndex :=
             <[fullpath file := Z.of_nat i]> (pathToHandleIndex wfs) |}).
Proof.
  intros Hn Hf. unfold AcquireHandle, map_index, found_and_not_nil.
  unfold no_live_handle in Hn.
  destruct (pathToHandleIndex wfs !! fullpath file) as [index|]; simpl.
  - rewrite Hn. simpl. by rewrite Hf.
  - by rewrite Hf.
Qed.

Lemma AcquireHandle_append file uid gid wfs :
  no_live_handle wfs (fullpath file) →
  first_nil (handles wfs) = None →
  AcquireHandle file uid gid wfs =
    let fileHandle := length (objects wfs) in
    let hs := handles wfs ++ [Some fileHandle] in
    let id := uint64_of_int (Z.of_nat (length hs) - 1) in
    Ok (Some fileHandle,
        {| objects :=
             set_handle fileHandle id
               (objects wfs ++ [newFileHandle file uid gid]);
           handles := hs;
           pathToHandleIndex :=
             <[fullpath file := int_of_uint64 id]> (pathToHandleIndex wfs) |}).
Proof.
  intros Hn Hf. unfold AcquireHandle, map_index, found_and_not_nil.
  unfold no_live_handle in Hn.
  destruct (pathToHandleIndex wfs !! fullpath file) as [index|]; simpl.
  - rewrite Hn. simpl. by rewrite Hf.
  - by rewrite Hf.
Qed.

(** Whenever [AcquireHandle] returns, it returned in one of these ways. *)
Lemma AcquireHandle_Ok_inv file uid gid wfs h wfs' :
  AcquireHandle file uid gid wfs = Ok (h, wfs') →
  (∃ index p, pathToHandleIndex wfs !! fullpath file = Some index ∧
              slice_get (handles wfs) index = Ok (Some p) ∧
              h = Some p ∧ wfs' = wfs) ∨
  (no_live_handle wfs (fullpath file) ∧
   ((∃ i, first_nil (handles wfs) = Some i) ∨
    first_nil (handles wfs) = None)).
Proof.
  intros H.
  destruct (pathToHandleIndex wfs !! fullpath file) as [index|] eqn:Hm.
  - destruct (slice_get (handles wfs) index) as [[p|]|] eqn:Hs.
    + left. exists index, p. rewrite (AcquireHandle_live _ _ _ _ _ _ Hm Hs) in H.
      by injection H as <- <-.
    + right. split; [unfold no_live_handle; by rewrite Hm|].
      destruct (first_nil (handles wfs)); eauto.
    + unfold AcquireHandle, map_index, found_and_not_nil in H.
      rewrite Hm in H. simpl in H. by rewrite Hs in H.
  - right. split; [unfold no_live_handle; by rewrite Hm|].
    destruct (first_nil (handles wfs)); eauto.
Qed.

(** *** [ReleaseHandle] *)

Lemma ReleaseHandle_out_of_bounds path handleId wfs :
  Z.of_nat (length (handles wfs)) ≤ int_of_uint64 handleId →
  ReleaseHandle path handleId wfs =
    Ok {| objects := objects wfs; handles := handles wfs;
          pathToHandleIndex := delete path (pathToHandleIndex wfs) |}.
Proof.
  intros H. unfold ReleaseHandle. by rewrite bool_decide_eq_false_2 by lia.
Qed.

Lemma ReleaseHandle_in_bounds path handleId wfs :
  0 ≤ int_of_uint64 handleId < Z.of_nat (length (handles wfs)) →
  ReleaseHandle path handleId wfs =
    Ok {| objects := objects wfs;
          handles := <[Z.to_nat (int_of_uint64 handleId) := None]> (handles wfs);
          pathToHandleIndex := delete path (pathToHandleIndex wfs) |}.
Proof.
  intros H. unfold ReleaseHandle, slice_set.
  rewrite bool_decide_eq_true_2 by lia.
  by rewrite bool_decide_eq_true_2 by lia.
Qed.

(** An identifier of 2^63 or more is a negative [int]: it passes the
    bounds test and the write to the slot panics. *)
Lemma ReleaseHandle_wrapped_id path handleId wfs :
  2 ^ 63 ≤ handleId < 2 ^ 64 →
  ReleaseHandle path handleId wfs = Panic.
Proof.
  intros H%int_of_uint64_neg. unfold ReleaseHandle, slice_set.
  rewrite bool_decide_eq_true_2 by lia.
  by rewrite bool_decide_eq_false_2 by lia.
Qed.

Lemma ReleaseHandle_Ok_inv path handleId wfs wfs' :
  ReleaseHandle path handleId wfs = Ok wfs' →
  pathToHandleIndex wfs' = delete path (pathToHandleIndex wfs) ∧
  objects wfs' = objects wfs ∧
  (handles wfs' = handles wfs ∨
   handles wfs' = <[Z.to_nat (int_of_uint64 handleId) := None]> (handles wfs)).
Proof.
  unfold ReleaseHandle, slice_set. intros H.
  repeat case_bool_decide; simpl in H; unfold mret, result_ret in H;
    try done; injection H as <-; simpl; auto.
Qed.

(** *** The invariant, and that the operations do not panic under it *)

Lemma wf_New : wf NewSeaweedFileSystem.
Proof. intros path i H. simpl in H. by rewrite lookup_empty in H. Qed.

Lemma no_live_handle_dec wfs path :
  wf wfs →
  (∃ index p, pathToHandleIndex wfs !! path = Some index ∧
              slice_get (handles wfs) index = Ok (Some p)) ∨
  no_live_handle wfs path.
Proof.
  intros Hwf. unfold no_live_handle.
  destruct (pathToHandleIndex wfs !! path) as [index|] eqn:Hm; [|by right].
  destruct (Hwf _ _ Hm) as [H0 Hlt].
  destruct (lookup_lt_is_Some_2 (handles wfs) (Z.to_nat index)) as [h Hh];
    [lia|].
  assert (slice_get (handles wfs) index = Ok h) as Hs
    by by apply slice_get_Ok.
  destruct h as [p|]; [left; eauto | by right].
Qed.

Lemma AcquireHandle_wf file uid gid wfs :
  wf wfs →
  Z.of_nat (length (handles wfs)) < 2 ^ 63 →
  ∃ h wfs', AcquireHandle file uid gid wfs = Ok (h, wfs') ∧ wf wfs' ∧
            (length (handles wfs') ≤ S (length (handles wfs)))%nat.
Proof.
  intros Hwf Hlen.
  destruct (no_live_handle_dec wfs (fullpath file) Hwf)
    as [(index & p & Hm & Hs)|Hn].
  { exists (Some p), wfs. rewrite (AcquireHandle_live _ _ _ _ _ _ Hm Hs).
    split_and!; [done..|lia]. }
  destruct (first_nil (handles wfs)) as [i|] eqn:Hf.
  - rewrite (AcquireHandle_first_nil _ _ _ _ _ Hn Hf). simpl.
    eexists _, _. split; [done|]. simpl.
    pose proof (first_nil_lt _ _ Hf) as Hi.
    split; [|rewrite length_insert; lia].
    intros path j. simpl. rewrite length_insert.
    destruct (decide (fullpath file = path)) as [->|Hne].
    + rewrite lookup_insert_eq. intros [= <-]. lia.
    + rewrite lookup_insert_ne by done. apply Hwf.
  - rewrite (AcquireHandle_append _ _ _ _ Hn Hf). simpl.
    eexists _, _. split; [done|]. simpl.
    split; [|rewrite length_app; simpl; lia].
    intros path j. simpl. rewrite length_app. simpl.
    destruct (decide (fullpath file = path)) as [->|Hne].
    + rewrite lookup_insert_eq. intros [= <-].
      rewrite uint64_of_int_id by lia. rewrite int_of_uint64_id by lia. lia.
    + rewrite lookup_insert_ne by done. intros H%Hwf. lia.
Qed.

Lemma ReleaseHandle_wf path handleId wfs :
  wf wfs →
  0 ≤ handleId < 2 ^ 63 →
  ∃ wfs', ReleaseHandle path handleId wfs = Ok wfs' ∧ wf wfs' ∧
          length (handles wfs') = length (handles wfs).
Proof.
  intros Hwf Hid.
  assert (int_of_uint64 handleId = handleId) as Hint
    by (apply int_of_uint64_id; lia).
  assert (∀ hs, length hs = length (handles wfs) →
    wf {| objects := objects wfs; handles := hs;
          pathToHandleIndex := delete path (pathToHandleIndex wfs) |}) as Hd.
  { intros hs Hhs p i. simpl. rewrite Hhs.
    intros [_ H]%lookup_delete_Some. by apply (Hwf p). }
  destruct (decide (handleId < Z.of_nat (length (handles wfs)))) as [Hlt|Hge].
  - rewrite ReleaseHandle_in_bounds by lia. eexists. split; [done|].
    simpl. split; [apply Hd|]; by rewrite length_insert.
  - rewrite ReleaseHandle_out_of_bounds by lia. eexists. split; [done|].
    simpl. split; [by apply Hd|done].
Qed.

Lemma call_wf c wfs :
  wf wfs → call_ok c →
  Z.of_nat (length (handles wfs)) < 2 ^ 63 →
  ∃ wfs', call c wfs = Ok wfs' ∧ wf wfs' ∧
          (length (handles wfs') ≤ S (length (handles wfs)))%nat.
Proof.
  intros Hwf Hok Hlen. destruct c as [file uid gid|path handleId]; simpl.
  - destruct (AcquireHandle_wf file uid gid wfs Hwf Hlen)
      as (h & wfs' & -> & Hwf' & Hl). simpl. eauto.
  - destruct (ReleaseHandle_wf path handleId wfs Hwf Hok)
      as (wfs' & -> & Hwf' & Hl). exists wfs'. split_and!; [done..|lia].
Qed.

Lemma calls_wf cs : ∀ wfs,
  wf wfs → Forall call_ok cs →
  Z.of_nat (length (handles wfs) + length cs) ≤ 2 ^ 63 →
  ∃ wfs', calls cs wfs = Ok wfs' ∧ wf wfs'.
Proof.
  induction cs as [|c cs IH]; intros wfs Hwf Hok Hlen; simpl.
  - by exists wfs.
  - apply Forall_cons in Hok as [Hc Hcs]. simpl in Hlen.
    destruct (call_wf c wfs Hwf Hc) as (wfs1 & -> & Hwf1 & Hl1); [lia|].
    simpl. apply IH; [done..|lia].
Qed.

(** *** How the length of the table changes *)

Lemma AcquireHandle_length file uid gid wfs h wfs' :
  AcquireHandle file uid gid wfs = Ok (h, wfs') →
  length (handles wfs') = length (handles wfs) ∨
  (length (handles wfs') = S (length (handles wfs)) ∧
   ∀ i, handles wfs !! i ≠ Some None).
Proof.
  intros H.
  destruct (AcquireHandle_Ok_inv _ _ _ _ _ _ H)
    as [(index & p & _ & _ & _ & ->)|[Hn [[i Hf]|Hf]]]; [by left|..].
  - rewrite (AcquireHandle_first_nil _ _ _ _ _ Hn Hf) in H.
    simpl in H. injection H as _ <-. simpl. left. apply length_insert.
  - rewrite (AcquireHandle_append _ _ _ _ Hn Hf) in H.
    simpl in H. injection H as _ <-. simpl. right.
    split; [rewrite length_app; simpl; lia|]. by apply first_nil_None.
Qed.

Lemma ReleaseHandle_length path handleId wfs wfs' :
  ReleaseHandle path handleId wfs = Ok wfs' →
  length (handles wfs') = length (handles wfs).
Proof.
  intros (_ & _ & [->| ->])%ReleaseHandle_Ok_inv;
    [done | apply length_insert].
Qed.

Lemma call_length c wfs wfs' :
  call c wfs = Ok wfs' → (length (handles wfs) ≤ length (handles wfs'))%nat.
Proof.
  destruct c as [file uid gid|path handleId]; simpl.
  - destruct (AcquireHandle file uid gid wfs) as [[h wfs1]|] eqn:E; [|done].
    simpl. intros [= ->].
    destruct (AcquireHandle_length _ _ _ _ _ _ E) as [->|[-> _]]; lia.
  - intros ->%ReleaseHandle_length. done.
Qed.

Lemma calls_length cs : ∀ wfs wfs',
  calls cs wfs = Ok wfs' → (length (handles wfs) ≤ length (handles wfs'))%nat.
Proof.
  induction cs as [|c cs IH]; intros wfs wfs'; simpl.
  - by intros [= ->].
  - destruct (call c wfs) as [wfs1|] eqn:E; [|done]. simpl.
    intros H%IH. apply call_length in E. lia.
Qed.

(** *** A map entry whose slot was emptied *)

(** The guard meant for this case repeats the condition of the first
    one, so it never fires: the call goes on to the scan and takes the
    first nil slot of the table, at or below the slot of the map entry. *)
Lemma AcquireHandle_stale_entry file uid gid wfs index :
  pathToHandleIndex wfs !! fullpath file = Some index →
  slice_get (handles wfs) index = Ok None →
  ∃ i, first_nil (handles wfs) = Some i ∧ (i ≤ Z.to_nat index)%nat ∧
    AcquireHandle file uid gid wfs =
      Ok (Some (length (objects wfs)),
          {| objects :=
               set_handle (length (objects wfs)) (uint64_of_int (Z.of_nat i))
                 (objects wfs ++ [newFileHandle file uid gid]);
             handles := <[i := Some (length (objects wfs))]> (handles wfs);
             pathToHandleIndex :=
               <[fullpath file := Z.of_nat i]> (pathToHandleIndex wfs) |}).
Proof.
  intros Hm Hs.
  assert (no_live_handle wfs (fullpath file)) as Hn
    by (unfold no_live_handle; by rewrite Hm).
  apply slice_get_Ok in Hs as [H0 Hs].
  destruct (first_nil (handles wfs)) as [i|] eqn:Hf.
  - exists i. split; [done|]. split.
    + apply first_nil_Some in Hf as [_ Hlt].
      destruct (decide (i ≤ Z.to_nat index)%nat) as [|Hgt]; [done|].
      exfalso. apply (Hlt (Z.to_nat index)); [lia|done].
    + by rewrite (AcquireHandle_first_nil _ _ _ _ _ Hn Hf).
  - exfalso. by apply (proj1 (first_nil_None _) Hf (Z.to_nat index)).
Qed.

(** C4.  On the state [churn] leads to, the map sends [/b] to slot 1 and
    that slot is nil; [AcquireHandle] for [/b] puts the fresh handle
    into slot 0 and gives it the identifier 0, leaving slot 1 nil. *)
Theorem AcquireHandle_stale_entry_other_slot :
  ∃ wfs, calls churn NewSeaweedFileSystem = Ok wfs ∧
    pathToHandleIndex wfs !! "/b" = Some 1 ∧
    handles wfs = [None; None] ∧
    ∃ p wfs', AcquireHandle (mkFile "/b") 0 0 wfs = Ok (Some p, wfs') ∧
      handle_id wfs' (Some p) = Some 0 ∧
      handles wfs' = [Some p; None] ∧
      pathToHandleIndex wfs' !! "/b" = Some 0.
Proof.
  eexists. split; [vm_compute; reflexivity|].
  split; [vm_compute; reflexivity|]. split; [reflexivity|].
  eexists _, _. split; [vm_compute; reflexivity|].
  split; [reflexivity|]. split; [reflexivity|]. vm_compute. reflexivity.
Qed.

(** C5.  When the map sends the path to a slot holding a handle, two
    calls in a row for that path both return that handle; neither call
    changes the table, the map or the handle, so the identifier read
    through it is the same both times. *)
Theorem AcquireHandle_twice_same_handle
    file1 uid1 gid1 file2 uid2 gid2 wfs index p :
  fullpath file2 = fullpath file1 →
  pathToHandleIndex wfs !! fullpath file1 = Some index →
  slice_get (handles wfs) index = Ok (Some p) →
  ∃ wfs1 wfs2,
    AcquireHandle file1 uid1 gid1 wfs = Ok (Some p, wfs1) ∧
    AcquireHandle file2 uid2 gid2 wfs1 = Ok (Some p, wfs2) ∧
    handle_id wfs2 (Some p) = handle_id wfs1 (Some p) ∧
    wfs1 = wfs ∧ wfs2 = wfs.
Proof.
  intros Hp Hm Hs. exists wfs, wfs.
  rewrite (AcquireHandle_live file1 _ _ _ _ _ Hm Hs).
  rewrite <- Hp in Hm.
  by rewrite (AcquireHandle_live file2 _ _ _ _ _ Hm Hs).
Qed.

Lemma AcquireHandle_twice_same_handle_witness :
  ∃ wfs1 wfs2,
    AcquireHandle (mkFile "/a") 0 0 one_open = Ok (Some 0%nat, wfs1) ∧
    AcquireHandle (mkFile "/a") 7 7 wfs1 = Ok (Some 0%nat, wfs2) ∧
    handle_id wfs2 (Some 0%nat) = handle_id wfs1 (Some 0%nat) ∧
    wfs1 = one_open ∧ wfs2 = one_open.
Proof.
  apply (AcquireHandle_twice_same_handle
           (mkFile "/a") 0 0 (mkFile "/a") 7 7 one_open 0 0%nat);
    reflexivity.
Defined.

(** C6, as the spec has it, fails: an out-of-bounds identifier leaves
    the table alone, but the entry of the path is deleted all the same. *)
Lemma ReleaseHandle_out_of_bounds_deletes_path :
  Z.of_nat (length (handles one_open)) ≤ 5 ∧
  ∃ wfs', ReleaseHandle "/a" 5 one_open = Ok wfs' ∧
    pathToHandleIndex one_open !! "/a" = Some 0 ∧
    pathToHandleIndex wfs' !! "/a" = None ∧
    pathToHandleIndex wfs' ≠ pathToHandleIndex one_open.
Proof.
  split; [simpl; lia|]. eexists. split; [reflexivity|].
  split; [reflexivity|]. split; [reflexivity|].
  intros H. apply (f_equal (λ m : gmap string Z, m !! "/a")) in H.
  vm_compute in H. discriminate H.
Qed.

(** C6, amended.  With an identifier at or past the end of the table
    (and below 2^63) [ReleaseHandle] returns, leaves the table and the
    handles as they are, and removes the path from the map: the map is
    unchanged exactly when the path had no entry. *)
Theorem ReleaseHandle_out_of_bounds_frame path handleId wfs :
  Z.of_nat (length (handles wfs)) ≤ handleId < 2 ^ 63 →
  ∃ wfs', ReleaseHandle path handleId wfs = Ok wfs' ∧
    handles wfs' = handles wfs ∧
    objects wfs' = objects wfs ∧
    pathToHandleIndex wfs' = delete path (pathToHandleIndex wfs) ∧
    (pathToHandleIndex wfs' = pathToHandleIndex wfs ↔
     pathToHandleIndex wfs !! path = None).
Proof.
  intros H. eexists. split.
  - apply ReleaseHandle_out_of_bounds. rewrite int_of_uint64_id; lia.
  - simpl. split_and!; [done..|]. split.
    + intros <-. apply lookup_delete_eq.
    + apply delete_id.
Qed.

Lemma ReleaseHandle_out_of_bounds_frame_witness :
  ∃ wfs', ReleaseHandle "/a" 5 one_open = Ok wfs' ∧
    handles wfs' = handles one_open ∧
    objects wfs' = objects one_open ∧
    pathToHandleIndex wfs' = delete "/a" (pathToHandleIndex one_open) ∧
    (pathToHandleIndex wfs' = pathToHandleIndex one_open ↔
     pathToHandleIndex one_open !! "/a" = None).
Proof.
  apply (ReleaseHandle_out_of_bounds_frame "/a" 5 one_open).
  simpl. lia.
Defined.

(** C10.  The table never gets shorter.  [ReleaseHandle] keeps its
    length: it changes nothing in it, or sets one slot to nil.
    [AcquireHandle] keeps its length or adds one slot, and adds one only
    when the table has no nil slot.  So no sequence of calls that
    returns shortens the table; and from a state in which the map's
    indices lie in the table, every sequence of calls returns, as long
    as the identifiers released are valid [int]s and the table stays
    below 2^63 slots. *)
Theorem handles_length_never_decreases :
  (∀ path handleId wfs wfs',
     ReleaseHandle path handleId wfs = Ok wfs' →
     length (handles wfs') = length (handles wfs) ∧
     (handles wfs' = handles wfs ∨
      handles wfs' =
        <[Z.to_nat (int_of_uint64 handleId) := None]> (handles wfs))) ∧
  (∀ file uid gid wfs h wfs',
     AcquireHandle file uid gid wfs = Ok (h, wfs') →
     length (handles wfs') = length (handles wfs) ∨
     (length (handles wfs') = S (length (handles wfs)) ∧
      ∀ i, handles wfs !! i ≠ Some None)) ∧
  (∀ cs wfs wfs',
     calls cs wfs = Ok wfs' →
     (length (handles wfs) ≤ length (handles wfs'))%nat) ∧
  (∀ cs wfs,
     wf wfs → Forall call_ok cs →
     Z.of_nat (length (handles wfs) + length cs) ≤ 2 ^ 63 →
     ∃ wfs', calls cs wfs = Ok wfs' ∧ wf wfs').
Proof.
  split_and!.
  - intros path handleId wfs wfs' H. split.
    + by apply ReleaseHandle_length in H.
    + by apply ReleaseHandle_Ok_inv in H as (_ & _ & ?).
  - apply AcquireHandle_length.
  - apply calls_length.
  - intros cs wfs. apply calls_wf.
Qed.

Lemma handles_length_never_decreases_witness :
  (length (handles (mkWFS (objects one_open) [None] ∅)) =
     length (handles one_open)) ∧
  (length (handles one_open) = length (handles one_open) ∨
   (length (handles one_open) = S (length (handles one_open)) ∧
    ∀ i, handles one_open !! i ≠ Some None)) ∧
  (length (handles NewSeaweedFileSystem) ≤
     length [@None ptr; None])%nat ∧
  (∃ wfs', calls churn NewSeaweedFileSystem = Ok wfs' ∧ wf wfs').
Proof.
  destruct handles_length_never_decreases as (Hrel & Hacq & Hseq & Hrun).
  split_and!.
  - pose proof (Hrel "/a" 0 one_open
      (mkWFS (objects one_open) [None] ∅) eq_refl) as [H _]. exact H.
  - exact (Hacq (mkFile "/a") 0 0 one_open (Some 0%nat) one_open eq_refl).
  - refine (Hseq churn NewSeaweedFileSystem
      (mkWFS _ [None; None] _) _). vm_compute. reflexivity.
  - apply (Hrun churn NewSeaweedFileSystem).
    + apply wf_New.
    + unfold churn. repeat constructor; simpl; lia.
    + simpl. lia.
Defined.

End handle_table.
(** * Properties of the read handlers *)

Section read_handlers.
Import Filer.

Implicit Types (fs : FilerServer) (w : ResponseWriter) (r : Request).
Implicit Types (entry : Entry) (chunk : FileChunk).

Lemma slice_get_head {A} (x : A) (s : list A) : slice_get (x :: s) 0 = Ok x.
Proof. reflexivity. Qed.

(** *** The resolve step *)

Lemma GetOrHeadHandler_not_resolved fs w r isGetMethod err :
  FindEntry (filer fs) (lookup_path r) = inl err →
  GetOrHeadHandler fs w r isGetMethod =
    Ok (emit (if bool_decide (lookup_path r = "/") then listDirectoryHandler
              else if bool_decide (err = ErrNotFound) then WriteHeader 404
              else WriteHeader 500) w).
Proof.
  unfold GetOrHeadHandler, lookup_path. intros ->.
  repeat case_bool_decide; done.
Qed.

(** What [GetOrHeadHandler] does with an entry that is a file and was
    not asked for with a trailing slash. *)
Lemma GetOrHeadHandler_file fs w r isGetMethod entry :
  FindEntry (filer fs) (lookup_path r) = inr entry →
  IsDirectory entry = false →
  HasSuffix (Path (URL r)) "/" = false →
  GetOrHeadHandler fs w r isGetMethod =
    if bool_decide (length (Chunks entry) = 0%nat)
    then Ok (emit (WriteHeader 204) w)
    else
      let w := set_header "Accept-Ranges" "bytes" w in
      if bool_decide (Method r = "HEAD") then
        let w :=
          set_header "Content-Length"
            (pretty (int_of_uint64 (TotalSize (Chunks entry)))) w in
        let w :=
          set_header "Last-Modified"
            (TimeFormat (filer fs) (Mtime (Attr entry))) w in
        let w :=
          if bool_decide (Mime (Attr entry) ≠ "")
          then set_header "Content-Type" (Mime (Attr entry)) w else w in
        Ok {| w_Header := setEtag (filer fs) (ETag (filer fs) (Chunks entry))
                            (w_Header w);
              calls := calls w |}
      else if bool_decide (length (Chunks entry) = 1%nat)
      then handleSingleChunk fs w r entry
      else handleMultipleChunks fs w r entry.
Proof.
  unfold GetOrHeadHandler, lookup_path. intros Hfind Hdir Hslash.
  rewrite Hslash in *. simpl in *. rewrite Hfind, Hdir. done.
Qed.

(** C3, as the spec has it, fails: when the lookup of the root path
    fails with an error other than not-found, the handler lists the
    root directory; it does not answer 500. *)
Lemma root_lookup_failure_lists_root :
  lookup_path (Demo.request "GET" "/" ∅ ∅) = "/" ∧
  FindEntry (filer Demo.store_down) "/" = inl (ErrOther "connection refused") ∧
  GetOrHeadHandler Demo.store_down Demo.w0 (Demo.request "GET" "/" ∅ ∅) true =
    Ok (emit listDirectoryHandler Demo.w0) ∧
  GetOrHeadHandler Demo.store_down Demo.w0 (Demo.request "GET" "/" ∅ ∅) true ≠
    Ok (emit (WriteHeader 500) Demo.w0).
Proof. split_and!; [reflexivity..|]. vm_compute. discriminate. Qed.

(** C3, amended.  When the lookup fails: for the root path, whatever the
    failure, the handler lists the root directory; for any other path
    it answers 404 to not-found and 500 to any other failure. *)
Theorem GetOrHeadHandler_resolve fs w r isGetMethod err :
  FindEntry (filer fs) (lookup_path r) = inl err →
  (lookup_path r = "/" →
   GetOrHeadHandler fs w r isGetMethod = Ok (emit listDirectoryHandler w)) ∧
  (lookup_path r ≠ "/" → err = ErrNotFound →
   GetOrHeadHandler fs w r isGetMethod = Ok (emit (WriteHeader 404) w)) ∧
  (lookup_path r ≠ "/" → err ≠ ErrNotFound →
   GetOrHeadHandler fs w r isGetMethod = Ok (emit (WriteHeader 500) w)).
Proof.
  intros Hfind.
  rewrite (GetOrHeadHandler_not_resolved _ _ _ _ _ Hfind).
  split_and!; intros; repeat case_bool_decide; done.
Qed.

Lemma GetOrHeadHandler_resolve_witness :
  (lookup_path (Demo.request "GET" "/missing" ∅ ∅) = "/" →
   GetOrHeadHandler (Demo.server false) Demo.w0
     (Demo.request "GET" "/missing" ∅ ∅) true =
   Ok (emit listDirectoryHandler Demo.w0)) ∧
  (lookup_path (Demo.request "GET" "/missing" ∅ ∅) ≠ "/" →
   ErrNotFound = ErrNotFound →
   GetOrHeadHandler (Demo.server false) Demo.w0
     (Demo.request "GET" "/missing" ∅ ∅) true =
   Ok (emit (WriteHeader 404) Demo.w0)) ∧
  (lookup_path (Demo.request "GET" "/missing" ∅ ∅) ≠ "/" →
   ErrNotFound ≠ ErrNotFound →
   GetOrHeadHandler (Demo.server false) Demo.w0
     (Demo.request "GET" "/missing" ∅ ∅) true =
   Ok (emit (WriteHeader 500) Demo.w0)).
Proof.
  apply (GetOrHeadHandler_resolve (Demo.server false) Demo.w0
           (Demo.request "GET" "/missing" ∅ ∅) true ErrNotFound).
  reflexivity.
Defined.

(** *** Entries without chunks *)

(** C7, as the spec has it, fails.  A HEAD request for a file without
    chunks is answered by [WriteHeader(204)] alone: no [Content-Length]
    header is set.  And an entry without chunks that is a directory is
    listed, not answered with 204. *)
Lemma empty_file_HEAD_sets_no_Content_Length :
  Chunks Demo.empty_file = [] ∧
  (∃ w, GetOrHeadHandler (Demo.server false) Demo.w0
          (Demo.request "HEAD" "/empty" ∅ ∅) false = Ok w ∧
        calls w = [WriteHeader 204] ∧
        w_Header w !! "Content-Length" = None ∧
        w_Header w !! "Content-Length" ≠ Some ["0"]) ∧
  Chunks (Demo.directory "/dir") = [] ∧
  (∃ w, GetOrHeadHandler (Demo.server false) Demo.w0
          (Demo.request "GET" "/dir" ∅ ∅) true = Ok w ∧
        calls w = [listDirectoryHandler]).
Proof.
  split; [reflexivity|]. split.
  { eexists. split; [vm_compute; reflexivity|].
    split; [reflexivity|]. split; [reflexivity|]. discriminate. }
  split; [reflexivity|].
  eexists. split; [vm_compute; reflexivity|]. reflexivity.
Qed.

(** C7, amended.  For an entry that is a file, asked for without a
    trailing slash, whose chunk list is empty, the handler answers 204
    and nothing else, whatever the method: it sets no header, so a HEAD
    request gets no [Content-Length] of the handler's. *)
Theorem GetOrHeadHandler_no_chunks fs w r isGetMethod entry :
  FindEntry (filer fs) (lookup_path r) = inr entry →
  IsDirectory entry = false →
  HasSuffix (Path (URL r)) "/" = false →
  Chunks entry = [] →
  GetOrHeadHandler fs w r isGetMethod = Ok (emit (WriteHeader 204) w) ∧
  w_Header (emit (WriteHeader 204) w) = w_Header w.
Proof.
  intros Hfind Hdir Hslash Hchunks.
  rewrite (GetOrHeadHandler_file _ _ _ _ _ Hfind Hdir Hslash), Hchunks.
  done.
Qed.

Lemma GetOrHeadHandler_no_chunks_witness :
  GetOrHeadHandler (Demo.server false) Demo.w0
    (Demo.request "HEAD" "/empty" ∅ ∅) false =
  Ok (emit (WriteHeader 204) Demo.w0) ∧
  w_Header (emit (WriteHeader 204) Demo.w0) = w_Header Demo.w0.
Proof.
  apply (GetOrHeadHandler_no_chunks (Demo.server false) Demo.w0
           (Demo.request "HEAD" "/empty" ∅ ∅) false Demo.empty_file);
    reflexivity.
Defined.

(** *** The query of the proxied request *)

Lemma Add_all_lookup key values : ∀ (q : Values) k,
  foldl (λ q value, Add key value q) q values !! k =
    if decide (k = key) then
      match values with
      | [] => q !! key
      | _ => Some (default [] (q !! key) ++ values)
      end
    else q !! k.
Proof.
  induction values as [|value values IH]; intros q k; simpl.
  - case_decide; by subst.
  - rewrite IH. unfold Add. case_decide as Hk.
    + rewrite lookup_insert_eq. simpl.
      destruct values; simpl; [done|]. by rewrite <- (assoc_L (++)).
    + by rewrite lookup_insert_ne.
Qed.

(** Key by key: the values of the resolved URL come first, the values of
    the original request after them. *)
Lemma proxy_query_lookup u r key :
  proxy_query u r !! key =
    match Query (URL r) !! key with
    | Some (value :: values) =>
        Some (default [] (Query u !! key) ++ value :: values)
    | _ => Query u !! key
    end.
Proof.
  unfold proxy_query. revert key.
  apply (map_fold_weak_ind
    (λ (q m : Values), ∀ key,
       q !! key = match m !! key with
                  | Some (value :: values) =>
                      Some (default [] (Query u !! key) ++ value :: values)
                  | _ => Query u !! key
                  end)).
  - intros key. by rewrite lookup_empty.
  - intros k values m q Hk IH key. rewrite Add_all_lookup.
    case_decide as Hkey.
    + subst key. rewrite lookup_insert_eq. rewrite IH, Hk.
      by destruct values.
    + rewrite lookup_insert_ne by done. apply IH.
Qed.

(** *** One chunk: redirect or proxy *)

Lemma handleSingleChunk_unresolved fs w r entry chunk chunks :
  Chunks entry = chunk :: chunks →
  LookupFileId (filer fs) (FileId chunk) = None →
  handleSingleChunk fs w r entry = Ok (emit (WriteHeader 404) w).
Proof.
  intros Hchunks Hlookup. unfold handleSingleChunk.
  rewrite Hchunks, slice_get_head. simpl. by rewrite Hlookup.
Qed.

Lemma handleSingleChunk_redirect fs w r entry chunk chunks urlString :
  Chunks entry = chunk :: chunks →
  LookupFileId (filer fs) (FileId chunk) = Some urlString →
  RedirectOnRead (option_ fs) = true →
  CipherKey chunk = None →
  handleSingleChunk fs w r entry = Ok (emit (Redirect urlString 302) w).
Proof.
  intros Hchunks Hlookup Hredirect Hkey. unfold handleSingleChunk.
  rewrite Hchunks, slice_get_head. simpl.
  by rewrite Hlookup, Hredirect, Hkey.
Qed.

(** A resolved URL that [url.Parse] refuses: [u] is nil and [u.Query()]
    panics. *)
Lemma handleSingleChunk_unparsed fs w r entry chunk chunks urlString :
  Chunks entry = chunk :: chunks →
  LookupFileId (filer fs) (FileId chunk) = Some urlString →
  RedirectOnRead (option_ fs) && bool_decide (CipherKey chunk = None) = false →
  url_Parse (filer fs) urlString = None →
  handleSingleChunk fs w r entry = Panic.
Proof.
  intros Hchunks Hlookup Hproxy Hparse. unfold handleSingleChunk.
  rewrite Hchunks, slice_get_head. simpl.
  by rewrite Hlookup, Hproxy, Hparse.
Qed.

(** The proxied path, up to the point where the response is written. *)
Lemma handleSingleChunk_proxy fs w r entry chunk chunks urlString u :
  Chunks entry = chunk :: chunks →
  LookupFileId (filer fs) (FileId chunk) = Some urlString →
  RedirectOnRead (option_ fs) && bool_decide (CipherKey chunk = None) = false →
  url_Parse (filer fs) urlString = Some u →
  handleSingleChunk fs w r entry =
    let request := proxy_request u r in
    let w := emit (Do request) w in
    match util_Do (filer fs) request with
    | inl do_err => Ok (emit (writeJsonError 500 do_err) w)
    | inr resp =>
        let w := proxy_headers w resp entry in
        w ← (if bool_decide (CipherKey chunk = None) then
               Ok (emit (Copy (resp_Body resp))
                     (emit (WriteHeader (StatusCode resp)) w))
             else writeEncryptedChunk fs w resp entry);
        Ok (emit (Close (resp_Body resp)) w)
    end.
Proof.
  intros Hchunks Hlookup Hproxy Hparse. unfold handleSingleChunk.
  rewrite Hchunks, slice_get_head. simpl.
  rewrite Hlookup, Hproxy, Hparse. done.
Qed.

Lemma writeEncryptedChunk_cases fs w resp entry chunk chunks key :
  Chunks entry = chunk :: chunks →
  CipherKey chunk = Some key →
  writeEncryptedChunk fs w resp entry =
    match ReadAll (resp_Body resp) with
    | None => Ok (emit (WriteHeader 404) w)
    | Some encryptedData =>
        match Decrypt (filer fs) encryptedData key with
        | None => Ok (emit (WriteHeader 404) w)
        | Some decryptedData =>
            Ok (emit (Write decryptedData)
                  (emit (WriteHeader (StatusCode resp))
                     (set_header "Content-Length" (pretty (Size chunk)) w)))
        end
    end.
Proof.
  intros Hchunks Hkey. unfold writeEncryptedChunk.
  rewrite Hchunks, slice_get_head. simpl. by rewrite Hkey.
Qed.

Lemma calls_proxy_headers w resp entry :
  calls (proxy_headers w resp entry) = calls w.
Proof. unfold proxy_headers. by case_bool_decide. Qed.

(** C2, as the spec has it, fails: with redirect-on-read, the target of
    the 302 is the resolved URL as it is, and the query of the original
    request ([a=1] here) is not in it; the URL with the request's query
    added is the one of the proxied fetch. *)
Lemma redirect_target_without_request_query :
  ∃ urlString u,
    LookupFileId (filer (Demo.server true)) "3,01" = Some urlString ∧
    handleSingleChunk (Demo.server true) Demo.w0
      (Demo.request "GET" "/plain" {[ "a" := ["1"] ]} ∅) Demo.plain_file =
    Ok (emit (Redirect urlString 302) Demo.w0) ∧
    url_Parse (filer (Demo.server true)) urlString = Some u ∧
    RawQuery u !! "a" = None ∧
    RawQuery (URL (proxy_request u
                     (Demo.request "GET" "/plain" {[ "a" := ["1"] ]} ∅)))
      !! "a" = Some ["1"] ∧
    u ≠ URL (proxy_request u
               (Demo.request "GET" "/plain" {[ "a" := ["1"] ]} ∅)).
Proof.
  eexists _, _. split; [reflexivity|]. split; [vm_compute; reflexivity|].
  split; [vm_compute; reflexivity|].
  split; [reflexivity|]. split; [vm_compute; reflexivity|].
  intros H. apply (f_equal (λ u, RawQuery u !! "a")) in H.
  vm_compute in H. discriminate H.
Qed.

(** C2, amended.  For a file of one chunk without cipher key, with
    redirect-on-read and the chunk's URL resolved, the handler answers
    by one redirect, with status 302, to the resolved URL as it is:
    the request's query has no part in the target. *)
Theorem handleSingleChunk_redirect_target fs w r entry chunk urlString :
  Chunks entry = [chunk] →
  CipherKey chunk = None →
  RedirectOnRead (option_ fs) = true →
  LookupFileId (filer fs) (FileId chunk) = Some urlString →
  handleSingleChunk fs w r entry = Ok (emit (Redirect urlString 302) w) ∧
  ∀ r', handleSingleChunk fs w r' entry = handleSingleChunk fs w r entry.
Proof.
  intros Hchunks Hkey Hredirect Hlookup. split.
  - by apply (handleSingleChunk_redirect _ _ _ _ chunk []).
  - intros r'.
    by rewrite !(handleSingleChunk_redirect _ _ _ _ chunk [] urlString).
Qed.

Lemma handleSingleChunk_redirect_target_witness :
  handleSingleChunk (Demo.server true) Demo.w0
    (Demo.request "GET" "/plain" {[ "a" := ["1"] ]} ∅) Demo.plain_file =
  Ok (emit (Redirect "http://127.0.0.1:8080/3,01" 302) Demo.w0) ∧
  ∀ r', handleSingleChunk (Demo.server true) Demo.w0 r' Demo.plain_file =
        handleSingleChunk (Demo.server true) Demo.w0
          (Demo.request "GET" "/plain" {[ "a" := ["1"] ]} ∅) Demo.plain_file.
Proof.
  apply (handleSingleChunk_redirect_target (Demo.server true) Demo.w0
           (Demo.request "GET" "/plain" {[ "a" := ["1"] ]} ∅)
           Demo.plain_file (Demo.chunk "3,01" 0 5 None));
    reflexivity.
Defined.

(** *** One chunk with a cipher key *)

(** The calls [handleSingleChunk] makes for a chunk with a cipher key,
    once its URL is resolved and parsed, case by case. *)
Lemma handleSingleChunk_encrypted fs w r entry chunk key urlString u :
  Chunks entry = [chunk] →
  CipherKey chunk = Some key →
  LookupFileId (filer fs) (FileId chunk) = Some urlString →
  url_Parse (filer fs) urlString = Some u →
  ∃ w', handleSingleChunk fs w r entry = Ok w' ∧
    calls w' = calls w ++
      Do (proxy_request u r) ::
      match util_Do (filer fs) (proxy_request u r) with
      | inl do_err => [writeJsonError 500 do_err]
      | inr resp =>
          match ReadAll (resp_Body resp) with
          | None => [WriteHeader 404]
          | Some encryptedData =>
              match Decrypt (filer fs) encryptedData key with
              | None => [WriteHeader 404]
              | Some decryptedData =>
                  [WriteHeader (StatusCode resp); Write decryptedData]
              end
          end ++ [Close (resp_Body resp)]
      end.
Proof.
  intros Hchunks Hkey Hlookup Hparse.
  rewrite (handleSingleChunk_proxy _ _ _ _ chunk [] urlString u)
    by (try done; rewrite Hkey; apply andb_false_r).
  simpl. destruct (util_Do _ _) as [do_err|resp].
  - eexists. split; [done|]. simpl. by rewrite <- (assoc_L (++)).
  - rewrite Hkey. simpl.
    rewrite (writeEncryptedChunk_cases _ _ _ _ chunk [] key) by done.
    destruct (ReadAll _) as [encryptedData|];
      [destruct (Decrypt _ _ _) as [decryptedData|]|];
      (eexists; split; [done|]); simpl;
      rewrite calls_proxy_headers; simpl;
      by rewrite <- !(assoc_L (++)).
Qed.

Local Ltac among H :=
  repeat (apply elem_of_app in H as [H|H]);
  repeat (apply elem_of_cons in H as [H|H]; [try discriminate H|]);
  try (by apply elem_of_nil in H).




(** C9.  For a file of one chunk with a cipher key whose URL is
    resolved and parsed and whose fetch is answered: if reading the
    fetched body fails, or decrypting it fails, the handler writes the
    status 404 (not 500) and no body, and the fetch it made is the only
    one. *)
Theorem encrypted_chunk_failure_is_not_found
    fs w r entry chunk key urlString u resp :
  Chunks entry = [chunk] →
  CipherKey chunk = Some key →
  LookupFileId (filer fs) (FileId chunk) = Some urlString →
  url_Parse (filer fs) urlString = Some u →
  util_Do (filer fs) (proxy_request u r) = inr resp →
  (ReadAll (resp_Body resp) = None ∨
   ∃ encryptedData,
     ReadAll (resp_Body resp) = Some encryptedData ∧
     Decrypt (filer fs) encryptedData key = None) →
  (∀ w1, writeEncryptedChunk fs w1 resp entry =
         Ok (emit (WriteHeader 404) w1)) ∧
  ∃ w', handleSingleChunk fs w r entry = Ok w' ∧
    calls w' = calls w ++ [Do (proxy_request u r);
                           WriteHeader 404;
                           Close (resp_Body resp)].
Proof.
  intros Hchunks Hkey Hlookup Hparse Hdo Hfail. split.
  - intros w1.
    rewrite (writeEncryptedChunk_cases _ _ _ _ chunk [] key) by done.
    destruct Hfail as [->|(encryptedData & -> & ->)]; done.
  - destruct (handleSingleChunk_encrypted fs w r entry chunk key urlString u
                Hchunks Hkey Hlookup Hparse) as (w' & Hw' & Hcalls).
    exists w'. split; [done|]. rewrite Hcalls, Hdo.
    destruct Hfail as [->|(encryptedData & -> & ->)]; done.
Qed.

Lemma encrypted_chunk_failure_is_not_found_witness :
  (∀ w1, writeEncryptedChunk (Demo.server false) w1
           (mkResponse 200 ∅ (mkBody ["h"; "e"; "l"; "l"; "o"]%byte false))
           Demo.secret_file =
         Ok (emit (WriteHeader 404) w1)) ∧
  ∃ w', handleSingleChunk (Demo.server false) Demo.w0
          (Demo.request "GET" "/secret" ∅ ∅) Demo.secret_file = Ok w' ∧
    calls w' = calls Demo.w0 ++
      [Do (proxy_request (mkURL "http://127.0.0.1:8080/3,02" ∅)
             (Demo.request "GET" "/secret" ∅ ∅));
       WriteHeader 404;
       Close (mkBody ["h"; "e"; "l"; "l"; "o"]%byte false)].
Proof.
  refine (encrypted_chunk_failure_is_not_found (Demo.server false) Demo.w0
            (Demo.request "GET" "/secret" ∅ ∅) Demo.secret_file
            (Demo.chunk "3,02" 0 5 (Some ["k"%byte])) ["k"%byte]
            "http://127.0.0.1:8080/3,02"
            (mkURL "http://127.0.0.1:8080/3,02" ∅)
            (mkResponse 200 ∅ (mkBody ["h"; "e"; "l"; "l"; "o"]%byte false))
            _ _ _ _ _ _);
    try reflexivity.
  right. exists ["h"; "e"; "l"; "l"; "o"]%byte. split; reflexivity.
Defined.

(** *** Several chunks and a [Range] header *)

(** Without a [Range] header the whole content is streamed. *)
Lemma handleMultipleChunks_no_range fs w r entry :
  Get "Range" (Header r) = "" →
  ∃ w', handleMultipleChunks fs w r entry = Ok w' ∧
    let totalSize := int_of_uint64 (TotalSize (Chunks entry)) in
    calls w' = calls w ++
      StreamContent (Chunks entry) 0 totalSize ::
      match stream_error (filer fs) (Chunks entry) 0 totalSize with
      | Some err => [Error err 500]
      | None => []
      end.
Proof.
  intros Hrange. unfold handleMultipleChunks, writeContent.
  rewrite Hrange. simpl.
  destruct (stream_error _ _ _ _); (eexists; split; [done|]); simpl;
    repeat case_bool_decide; simpl; by rewrite <- ?(assoc_L (++)).
Qed.

(** With a [Range] header that parses to ranges longer in sum than the
    content, the handler returns at once: it makes no call on the
    response writer, so nothing of the content is streamed. *)
Lemma handleMultipleChunks_oversized fs w r entry ranges :
  Get "Range" (Header r) ≠ "" →
  parseRange (filer fs) (Get "Range" (Header r))
    (int_of_uint64 (TotalSize (Chunks entry))) = inr ranges →
  sumRangesSize ranges > int_of_uint64 (TotalSize (Chunks entry)) →
  ∃ w', handleMultipleChunks fs w r entry = Ok w' ∧ calls w' = calls w.
Proof.
  intros Hrange Hparse Hsum. unfold handleMultipleChunks.
  rewrite (bool_decide_eq_false_2 _ Hrange). simpl. rewrite Hparse.
  rewrite (bool_decide_eq_true_2 _ Hsum).
  eexists. split; [done|]. simpl. by repeat case_bool_decide.
Qed.

(** C1.  The file [/big] has two chunks and five bytes in all.  Asked
    for with [Range: bytes=0-4,0-4,0-4], which parses to three ranges
    of five bytes, fifteen in sum, the handler makes no call on the
    response writer at all; asked for without the header, it streams
    the five bytes. *)
Theorem oversized_ranges_serve_nothing :
  TotalSize (Chunks Demo.big_file) = 5 ∧
  parseRange (filer (Demo.server false)) "bytes=0-4,0-4,0-4" 5 =
    inr [mkRange 0 5; mkRange 0 5; mkRange 0 5] ∧
  sumRangesSize [mkRange 0 5; mkRange 0 5; mkRange 0 5] = 15 ∧
  (∃ w, GetOrHeadHandler (Demo.server false) Demo.w0
          (Demo.request "GET" "/big" ∅
             {[ "Range" := ["bytes=0-4,0-4,0-4"] ]}) true = Ok w ∧
        calls w = []) ∧
  (∃ w, GetOrHeadHandler (Demo.server false) Demo.w0
          (Demo.request "GET" "/big" ∅ ∅) true = Ok w ∧
        calls w = [StreamContent (Chunks Demo.big_file) 0 5]).
Proof.
  split; [reflexivity|]. split; [vm_compute; reflexivity|].
  split; [reflexivity|].
  split; (eexists; split; [vm_compute; reflexivity|reflexivity]).
Qed.

End read_handlers.

(** * More properties of the handle table *)

Section handle_table_more.
Import Wfs HandleTable.

Lemma set_handle_fresh objs fh id :
  set_handle (length objs) id (objs ++ [fh]) =
  objs ++ [{| f := f fh; Uid := Uid fh; Gid := Gid fh; handle := id |}].
Proof.
  unfold set_handle. rewrite list_lookup_middle by done.
  rewrite insert_app_r_alt by done. by rewrite Nat.sub_diag.
Qed.

Lemma slots_carry_index_lt wfs i p :
  slots_carry_index wfs → handles wfs !! i = Some (Some p) →
  (p < length (objects wfs))%nat.
Proof.
  intros Hinv Hi. specialize (Hinv i p Hi).
  apply fmap_Some in Hinv as (fh & Hp & _).
  by apply lookup_lt_Some in Hp.
Qed.

(** Putting a fresh handle with identifier [i] into slot [i]. *)
Lemma slots_carry_index_put wfs fh hs i m :
  slots_carry_index wfs →
  (∀ j p, j ≠ i → hs !! j = Some (Some p) → handles wfs !! j = Some (Some p)) →
  (∀ p, hs !! i = Some (Some p) → p = length (objects wfs)) →
  slots_carry_index
    {| objects := set_handle (length (objects wfs)) (Z.of_nat i)
                    (objects wfs ++ [fh]);
       handles := hs; pathToHandleIndex := m |}.
Proof.
  intros Hinv Hother Hi j p. simpl. rewrite set_handle_fresh. intros Hj.
  destruct (decide (j = i)) as [->|Hne].
  - rewrite (Hi p Hj). by rewrite list_lookup_middle.
  - apply Hother in Hj; [|done].
    pose proof (slots_carry_index_lt _ _ _ Hinv Hj).
    rewrite lookup_app_l by done. by apply Hinv.
Qed.

Lemma AcquireHandle_slots file uid gid wfs h wfs' :
  slots_carry_index wfs →
  Z.of_nat (length (handles wfs)) < 2 ^ 63 →
  AcquireHandle file uid gid wfs = Ok (h, wfs') →
  slots_carry_index wfs'.
Proof.
  intros Hinv Hlen H.
  destruct (AcquireHandle_Ok_inv _ _ _ _ _ _ H)
    as [(index & p & _ & _ & _ & ->)|[Hn [[i Hf]|Hf]]]; [done|..].
  - rewrite (AcquireHandle_first_nil _ _ _ _ _ Hn Hf) in H.
    simpl in H. injection H as _ <-.
    pose proof (first_nil_lt _ _ Hf) as Hi.
    rewrite uint64_of_int_id by lia. apply slots_carry_index_put; [done|..].
    + intros j p Hne. by rewrite list_lookup_insert_ne.
    + intros p. rewrite list_lookup_insert_eq by done. by intros [= <-].
  - rewrite (AcquireHandle_append _ _ _ _ Hn Hf) in H.
    simpl in H. injection H as _ <-.
    rewrite length_app. simpl.
    rewrite uint64_of_int_id by lia.
    replace (Z.of_nat (length (handles wfs) + 1) - 1)
      with (Z.of_nat (length (handles wfs))) by lia.
    apply slots_carry_index_put; [done|..].
    + intros j p Hne Hj. apply lookup_app_Some in Hj as [Hj|[Hge Hj]]; [done|].
      destruct (j - length (handles wfs))%nat eqn:E; [lia|done].
    + intros p. rewrite list_lookup_middle by done. by intros [= <-].
Qed.

Lemma ReleaseHandle_slots path handleId wfs wfs' :
  slots_carry_index wfs →
  ReleaseHandle path handleId wfs = Ok wfs' →
  slots_carry_index wfs'.
Proof.
  intros Hinv (_ & Hobjs & Hhs)%ReleaseHandle_Ok_inv i p.
  rewrite Hobjs. destruct Hhs as [->| ->]; [apply Hinv|].
  intros Hi. apply Hinv.
  destruct (decide (Z.to_nat (int_of_uint64 handleId) = i)) as [<-|Hne].
  - apply list_lookup_insert_Some in Hi as [(_ & [=] & _)|[? _]]; done.
  - by rewrite list_lookup_insert_ne in Hi.
Qed.

Lemma call_length_S c wfs wfs' :
  call c wfs = Ok wfs' →
  (length (handles wfs') ≤ S (length (handles wfs)))%nat.
Proof.
  destruct c as [file uid gid|path handleId]; simpl.
  - destruct (AcquireHandle file uid gid wfs) as [[h wfs1]|] eqn:E; [|done].
    simpl. intros [= ->].
    destruct (AcquireHandle_length _ _ _ _ _ _ E) as [->|[-> _]]; lia.
  - intros ->%ReleaseHandle_length. lia.
Qed.

Lemma calls_slots cs : ∀ wfs wfs',
  slots_carry_index wfs →
  Z.of_nat (length (handles wfs) + length cs) ≤ 2 ^ 63 →
  calls cs wfs = Ok wfs' →
  slots_carry_index wfs'.
Proof.
  induction cs as [|c cs IH]; intros wfs wfs' Hinv Hlen; simpl.
  - by intros [= <-].
  - destruct (call c wfs) as [wfs1|] eqn:E; [|done]. simpl. simpl in Hlen.
    pose proof (call_length_S _ _ _ E).
    apply IH; [|lia].
    destruct c as [file uid gid|path handleId]; simpl in E.
    + destruct (AcquireHandle file uid gid wfs) as [[h wfs2]|] eqn:E2; [|done].
      simpl in E. injection E as ->.
      eapply AcquireHandle_slots; [done| |done]. lia.
    + by eapply ReleaseHandle_slots.
Qed.

(** X1.  In every state reached from [NewSeaweedFileSystem] by calls
    that return (fewer than 2^63 of them), a handle that sits in slot
    [i] has the identifier [i]; so a handle sits in one slot only. *)
Theorem reachable_handles_carry_slot_index cs wfs :
  Z.of_nat (length cs) ≤ 2 ^ 63 →
  calls cs NewSeaweedFileSystem = Ok wfs →
  slots_carry_index wfs ∧
  ∀ i j p, handles wfs !! i = Some (Some p) →
           handles wfs !! j = Some (Some p) → i = j.
Proof.
  intros Hlen Hcalls.
  assert (slots_carry_index wfs) as Hinv.
  { eapply (calls_slots cs NewSeaweedFileSystem); [|exact Hlen|exact Hcalls].
    by intros i p. }
  split; [done|]. intros i j p Hi Hj.
  apply Hinv in Hi. apply Hinv in Hj. rewrite Hi in Hj.
  injection Hj. lia.
Qed.

Lemma reachable_handles_carry_slot_index_witness :
  slots_carry_index (mkWFS
    [mkFileHandle (mkFile "/a") 0 0 0; mkFileHandle (mkFile "/b") 0 0 1]
    [Some 0%nat; Some 1%nat] {[ "/a" := 0; "/b" := 1 ]}) ∧
  ∀ i j p,
    [Some 0%nat; Some 1%nat] !! i = Some (Some p) →
    [Some 0%nat; Some 1%nat] !! j = Some (Some p) → i = j.
Proof.
  apply (reachable_handles_carry_slot_index
           [Acquire (mkFile "/a") 0 0; Acquire (mkFile "/b") 0 0]).
  - simpl. lia.
  - reflexivity.
Defined.

(** X2.  A handle [AcquireHandle] returns is never nil, and it is the
    one the table holds for the path afterwards: the map sends the path
    to a slot of the table, that slot holds the returned handle, and
    (when the handles carried their slot indices before) the identifier
    of the handle is the index of that slot. *)
Theorem AcquireHandle_registers file uid gid wfs h wfs' :
  slots_carry_index wfs →
  Z.of_nat (length (handles wfs)) < 2 ^ 63 →
  AcquireHandle file uid gid wfs = Ok (h, wfs') →
  ∃ p i, h = Some p ∧
    pathToHandleIndex wfs' !! fullpath file = Some (Z.of_nat i) ∧
    handles wfs' !! i = Some (Some p) ∧
    handle_id wfs' h = Some (Z.of_nat i).
Proof.
  intros Hinv Hlen H.
  pose proof (AcquireHandle_slots _ _ _ _ _ _ Hinv Hlen H) as Hinv'.
  assert (∀ p i, h = Some p → handles wfs' !! i = Some (Some p) →
                 handle_id wfs' h = Some (Z.of_nat i)) as Hid.
  { intros p i -> Hi. by apply Hinv'. }
  destruct (AcquireHandle_Ok_inv _ _ _ _ _ _ H)
    as [(index & p & Hm & [H0 Hs]%slice_get_Ok & -> & ->)|[Hn [[i Hf]|Hf]]].
  - exists p, (Z.to_nat index).
    split_and!; [done|by rewrite Z2Nat.id|done|by eapply Hid].
  - rewrite (AcquireHandle_first_nil _ _ _ _ _ Hn Hf) in H.
    simpl in H. injection H as <- <-.
    pose proof (first_nil_lt _ _ Hf) as Hi.
    assert (<[i := Some (length (objects wfs))]> (handles wfs) !! i =
            Some (Some (length (objects wfs)))) as Hslot
      by by apply list_lookup_insert_eq.
    eexists _, i. split_and!; [done|apply lookup_insert_eq|done|].
    by eapply Hid.
  - rewrite (AcquireHandle_append _ _ _ _ Hn Hf) in H.
    simpl in H. injection H as <- <-.
    assert ((handles wfs ++ [Some (length (objects wfs))])
              !! length (handles wfs) =
            Some (Some (length (objects wfs)))) as Hslot
      by by apply list_lookup_middle.
    eexists _, (length (handles wfs)). split_and!; [done| |done|].
    + simpl. rewrite lookup_insert_eq, length_app. simpl.
      rewrite uint64_of_int_id, int_of_uint64_id by lia. f_equal. lia.
    + by eapply Hid.
Qed.

Lemma AcquireHandle_registers_witness :
  ∃ p i, Some 1%nat = Some p ∧
    <[ "/b" := 0 ]> (pathToHandleIndex gaps) !! "/b" = Some (Z.of_nat i) ∧
    [Some 1%nat; Some 0%nat; None] !! i = Some (Some p) ∧
    handle_id (mkWFS
      [mkFileHandle (mkFile "/a") 0 0 1; mkFileHandle (mkFile "/b") 5 6 0]
      [Some 1%nat; Some 0%nat; None]
      (<[ "/b" := 0 ]> (pathToHandleIndex gaps))) (Some 1%nat) =
      Some (Z.of_nat i).
Proof.
  refine (AcquireHandle_registers (mkFile "/b") 5 6 gaps (Some 1%nat)
    (mkWFS
      [mkFileHandle (mkFile "/a") 0 0 1; mkFileHandle (mkFile "/b") 5 6 0]
      [Some 1%nat; Some 0%nat; None]
      (<[ "/b" := 0 ]> (pathToHandleIndex gaps))) _ _ _).
  - intros [|[|[|i]]] p; simpl; intros [= <-]. reflexivity.
  - simpl. lia.
  - reflexivity.
Defined.

(** X3.  First fit.  For a path without a handle in the table, when
    slot [i] is the lowest nil slot, [AcquireHandle] puts the fresh
    handle there with identifier [i]: the table keeps its length, no
    other slot and no other map entry changes. *)
Theorem AcquireHandle_takes_lowest_free_slot file uid gid wfs i :
  no_live_handle wfs (fullpath file) →
  handles wfs !! i = Some None →
  (∀ j, (j < i)%nat → handles wfs !! j ≠ Some None) →
  Z.of_nat i < 2 ^ 64 →
  ∃ p wfs', AcquireHandle file uid gid wfs = Ok (Some p, wfs') ∧
    handles wfs' = <[i := Some p]> (handles wfs) ∧
    length (handles wfs') = length (handles wfs) ∧
    pathToHandleIndex wfs' =
      <[fullpath file := Z.of_nat i]> (pathToHandleIndex wfs) ∧
    handle_id wfs' (Some p) = Some (Z.of_nat i) ∧
    ∀ q, (q < length (objects wfs))%nat → objects wfs' !! q = objects wfs !! q.
Proof.
  intros Hn Hi Hlow Hbound.
  assert (first_nil (handles wfs) = Some i) as Hf by by apply first_nil_Some.
  rewrite (AcquireHandle_first_nil _ _ _ _ _ Hn Hf). simpl.
  eexists _, _. split; [done|]. simpl.
  rewrite set_handle_fresh, uint64_of_int_id by lia.
  split_and!; [done|apply length_insert|done| |].
  - unfold handle_id. simpl. by rewrite list_lookup_middle.
  - intros q Hq. by rewrite lookup_app_l.
Qed.

Lemma AcquireHandle_takes_lowest_free_slot_witness :
  ∃ p wfs', AcquireHandle (mkFile "/b") 5 6 gaps = Ok (Some p, wfs') ∧
    handles wfs' = <[0%nat := Some p]> (handles gaps) ∧
    length (handles wfs') = length (handles gaps) ∧
    pathToHandleIndex wfs' = <[ "/b" := 0 ]> (pathToHandleIndex gaps) ∧
    handle_id wfs' (Some p) = Some 0 ∧
    ∀ q, (q < length (objects gaps))%nat → objects wfs' !! q = objects gaps !! q.
Proof.
  apply (AcquireHandle_takes_lowest_free_slot (mkFile "/b") 5 6 gaps 0%nat).
  - reflexivity.
  - reflexivity.
  - intros j Hj. lia.
  - simpl. lia.
Defined.

(** X4.  Opening and closing again.  For a path the map has no entry
    for, [AcquireHandle] followed by [ReleaseHandle] of the path with
    the identifier of the returned handle gives back the map as it
    was, and the table as it was if it had a nil slot; if it had none,
    the table is the old one with one nil slot added. *)
Theorem AcquireHandle_then_ReleaseHandle file uid gid wfs :
  pathToHandleIndex wfs !! fullpath file = None →
  Z.of_nat (length (handles wfs)) < 2 ^ 63 →
  ∃ p wfs1 id wfs2,
    AcquireHandle file uid gid wfs = Ok (Some p, wfs1) ∧
    handle_id wfs1 (Some p) = Some id ∧
    ReleaseHandle (fullpath file) id wfs1 = Ok wfs2 ∧
    pathToHandleIndex wfs2 = pathToHandleIndex wfs ∧
    handles wfs2 =
      match first_nil (handles wfs) with
      | Some _ => handles wfs
      | None => handles wfs ++ [None]
      end.
Proof.
  intros Hm Hlen.
  assert (no_live_handle wfs (fullpath file)) as Hn
    by (unfold no_live_handle; by rewrite Hm).
  destruct (first_nil (handles wfs)) as [i|] eqn:Hf.
  - pose proof (first_nil_lt _ _ Hf) as Hi.
    rewrite (AcquireHandle_first_nil _ _ _ _ _ Hn Hf). simpl.
    eexists _, _, (Z.of_nat i), _. split; [done|].
    rewrite set_handle_fresh, uint64_of_int_id by lia. split.
    { unfold handle_id. simpl. by rewrite list_lookup_middle. }
    rewrite ReleaseHandle_in_bounds; simpl;
      rewrite ?length_insert, int_of_uint64_id by lia; [|lia].
    split; [done|]. simpl. rewrite Nat2Z.id. split.
    + by apply delete_insert_id.
    + rewrite list_insert_insert_eq. apply list_insert_id.
      by apply first_nil_Some in Hf as [? _].
  - rewrite (AcquireHandle_append _ _ _ _ Hn Hf). simpl.
    rewrite length_app. simpl.
    replace (Z.of_nat (length (handles wfs) + 1) - 1)
      with (Z.of_nat (length (handles wfs))) by lia.
    eexists _, _, (Z.of_nat (length (handles wfs))), _. split; [done|].
    rewrite set_handle_fresh, uint64_of_int_id by lia. split.
    { unfold handle_id. simpl. by rewrite list_lookup_middle. }
    rewrite ReleaseHandle_in_bounds; simpl;
      rewrite ?length_app, int_of_uint64_id by lia; [|simpl; lia].
    split; [done|]. simpl. rewrite Nat2Z.id. split.
    + by apply delete_insert_id.
    + rewrite insert_app_r_alt by done. by rewrite Nat.sub_diag.
Qed.

Lemma AcquireHandle_then_ReleaseHandle_witness :
  ∃ p wfs1 id wfs2,
    AcquireHandle (mkFile "/b") 5 6 gaps = Ok (Some p, wfs1) ∧
    handle_id wfs1 (Some p) = Some id ∧
    ReleaseHandle "/b" id wfs1 = Ok wfs2 ∧
    pathToHandleIndex wfs2 = pathToHandleIndex gaps ∧
    handles wfs2 =
      match first_nil (handles gaps) with
      | Some _ => handles gaps
      | None => handles gaps ++ [None]
      end.
Proof.
  apply (AcquireHandle_then_ReleaseHandle (mkFile "/b") 5 6 gaps).
  - reflexivity.
  - simpl. lia.
Defined.

Lemma slice_get_Panic {A} (s : list A) i :
  slice_get s i = Panic ↔ ¬ (0 ≤ i < Z.of_nat (length s)).
Proof.
  unfold slice_get. destruct (bool_decide_reflect (0 ≤ i)) as [Hi|Hi].
  - destruct (s !! Z.to_nat i) as [x|] eqn:Hs.
    + apply lookup_lt_Some in Hs. split; [done|lia].
    + apply lookup_ge_None in Hs. split; [lia|done].
  - split; [lia|done].
Qed.

(** X5.  [AcquireHandle] panics in one situation only: the map sends
    the path to an index that is not an index of the table. *)
Theorem AcquireHandle_panics_iff file uid gid wfs :
  AcquireHandle file uid gid wfs = Panic ↔
  ∃ index, pathToHandleIndex wfs !! fullpath file = Some index ∧
           ¬ (0 ≤ index < Z.of_nat (length (handles wfs))).
Proof.
  destruct (pathToHandleIndex wfs !! fullpath file) as [index|] eqn:Hm.
  - destruct (slice_get (handles wfs) index) as [[p|]|] eqn:Hs.
    + rewrite (AcquireHandle_live _ _ _ _ _ _ Hm Hs). split; [done|].
      intros (? & [= <-] & Hout). apply slice_get_Panic in Hout. congruence.
    + destruct (AcquireHandle_stale_entry file uid gid wfs index Hm Hs)
        as (i & _ & _ & ->). split; [done|].
      intros (? & [= <-] & Hout). apply slice_get_Panic in Hout. congruence.
    + split.
      * intros _. exists index. split; [done|]. by apply slice_get_Panic.
      * intros _. unfold AcquireHandle, map_index, found_and_not_nil.
        rewrite Hm. simpl. by rewrite Hs.
  - split; [|by intros (? & [=] & _)].
    assert (no_live_handle wfs (fullpath file)) as Hn
      by (unfold no_live_handle; by rewrite Hm).
    destruct (first_nil (handles wfs)) as [i|] eqn:Hf.
    + by rewrite (AcquireHandle_first_nil _ _ _ _ _ Hn Hf).
    + by rewrite (AcquireHandle_append _ _ _ _ Hn Hf).
Qed.

(** X6.  [ReleaseHandle] panics exactly when the identifier, taken as an
    [int], is negative: the bounds test has no lower bound.  For an
    identifier that is a [uint64], that is from 2^63 on. *)
Theorem ReleaseHandle_panics_iff path handleId wfs :
  (ReleaseHandle path handleId wfs = Panic ↔ int_of_uint64 handleId < 0) ∧
  (0 ≤ handleId < 2 ^ 64 →
   ReleaseHandle path handleId wfs = Panic ↔ 2 ^ 63 ≤ handleId).
Proof.
  assert (ReleaseHandle path handleId wfs = Panic ↔ int_of_uint64 handleId < 0)
    as Hiff.
  { unfold ReleaseHandle, slice_set.
    repeat case_bool_decide; simpl; split; (done || lia). }
  split; [done|]. intros Hu. rewrite Hiff. unfold int_of_uint64.
  case_bool_decide; lia.
Qed.

Lemma ReleaseHandle_panics_iff_witness :
  ReleaseHandle "/a" (2 ^ 64 - 1) one_open = Panic ↔ 2 ^ 63 ≤ 2 ^ 64 - 1.
Proof.
  apply (proj2 (ReleaseHandle_panics_iff "/a" (2 ^ 64 - 1) one_open)).
  lia.
Defined.

(** X7.  Releasing twice is releasing once: when [ReleaseHandle]
    returns, the same call on the state it leaves returns that state
    unchanged. *)
Theorem ReleaseHandle_twice path handleId wfs wfs1 :
  ReleaseHandle path handleId wfs = Ok wfs1 →
  ReleaseHandle path handleId wfs1 = Ok wfs1.
Proof.
  intros H. pose proof (ReleaseHandle_length _ _ _ _ H) as Hlen.
  unfold ReleaseHandle, slice_set in *. rewrite Hlen.
  repeat case_bool_decide; simpl in *; unfold mret, result_ret in *;
    try done; try lia; injection H as <-; simpl;
    by rewrite delete_delete_eq, ?list_insert_insert_eq.
Qed.

Lemma ReleaseHandle_twice_witness :
  ReleaseHandle "/a" 0 (mkWFS (objects one_open) [None] ∅) =
  Ok (mkWFS (objects one_open) [None] ∅).
Proof.
  apply (ReleaseHandle_twice "/a" 0 one_open). reflexivity.
Defined.

(** X8.  The table grows by at most one slot for each [AcquireHandle]
    call and by none for a [ReleaseHandle] call. *)
Theorem handles_length_bounded_by_acquires cs : ∀ wfs wfs',
  calls cs wfs = Ok wfs' →
  (length (handles wfs') ≤ length (handles wfs) + acquires cs)%nat.
Proof.
  induction cs as [|c cs IH]; intros wfs wfs'; simpl.
  - intros [= <-]. lia.
  - destruct (call c wfs) as [wfs1|] eqn:E; [|done]. simpl. intros H%IH.
    destruct c as [file uid gid|path handleId]; simpl in E.
    + apply (call_length_S (Acquire file uid gid)) in E. lia.
    + apply ReleaseHandle_length in E. lia.
Qed.

Lemma handles_length_bounded_by_acquires_witness :
  (length [@None ptr; None] ≤
   length (handles NewSeaweedFileSystem) + acquires churn)%nat.
Proof.
  refine (handles_length_bounded_by_acquires churn NewSeaweedFileSystem
            (mkWFS _ [None; None] _) _).
  vm_compute. reflexivity.
Defined.

Lemma handle_id_older wfs fh id hs m p :
  (p < length (objects wfs))%nat →
  handle_id
    {| objects := set_handle (length (objects wfs)) id (objects wfs ++ [fh]);
       handles := hs; pathToHandleIndex := m |} (Some p) =
  handle_id wfs (Some p).
Proof.
  intros Hp. unfold handle_id. simpl. rewrite set_handle_fresh.
  by rewrite lookup_app_l.
Qed.

(** X9.  Opening another file leaves a handle in place.  When the
    table holds a handle for one path, [AcquireHandle] for a different
    path, if it returns, leaves the map entry of the first path, its
    slot and the identifier of its handle as they are. *)
Theorem AcquireHandle_keeps_other_handles
    file uid gid wfs h wfs' path i p id :
  fullpath file ≠ path →
  pathToHandleIndex wfs !! path = Some i →
  handles wfs !! Z.to_nat i = Some (Some p) →
  handle_id wfs (Some p) = Some id →
  AcquireHandle file uid gid wfs = Ok (h, wfs') →
  pathToHandleIndex wfs' !! path = Some i ∧
  handles wfs' !! Z.to_nat i = Some (Some p) ∧
  handle_id wfs' (Some p) = Some id.
Proof.
  intros Hne Hm Hslot Hid H.
  assert (p < length (objects wfs))%nat as Hp.
  { unfold handle_id in Hid. simpl in Hid.
    apply fmap_Some in Hid as (fh & Hfh & _). by apply lookup_lt_Some in Hfh. }
  destruct (AcquireHandle_Ok_inv _ _ _ _ _ _ H)
    as [(index & q & _ & _ & _ & ->)|[Hn [[j Hf]|Hf]]]; [done|..].
  - rewrite (AcquireHandle_first_nil _ _ _ _ _ Hn Hf) in H.
    simpl in H. injection H as <- <-.
    assert (j ≠ Z.to_nat i) as Hj.
    { intros ->. apply first_nil_Some in Hf as [Hf _]. congruence. }
    rewrite handle_id_older by done. simpl.
    by rewrite lookup_insert_ne, list_lookup_insert_ne by done.
  - rewrite (AcquireHandle_append _ _ _ _ Hn Hf) in H.
    simpl in H. injection H as <- <-.
    rewrite handle_id_older by done. simpl.
    rewrite lookup_insert_ne by done.
    by rewrite lookup_app_l by (by eapply lookup_lt_Some).
Qed.

Lemma AcquireHandle_keeps_other_handles_witness :
  pathToHandleIndex
    (mkWFS
      [mkFileHandle (mkFile "/a") 0 0 1; mkFileHandle (mkFile "/b") 5 6 0]
      [Some 1%nat; Some 0%nat; None]
      (<[ "/b" := 0 ]> (pathToHandleIndex gaps))) !! "/a" = Some 1 ∧
  [Some 1%nat; Some 0%nat; None] !! Z.to_nat 1 = Some (Some 0%nat) ∧
  handle_id
    (mkWFS
      [mkFileHandle (mkFile "/a") 0 0 1; mkFileHandle (mkFile "/b") 5 6 0]
      [Some 1%nat; Some 0%nat; None]
      (<[ "/b" := 0 ]> (pathToHandleIndex gaps))) (Some 0%nat) = Some 1.
Proof.
  refine (AcquireHandle_keeps_other_handles (mkFile "/b") 5 6 gaps
    (Some 1%nat)
    (mkWFS
      [mkFileHandle (mkFile "/a") 0 0 1; mkFileHandle (mkFile "/b") 5 6 0]
      [Some 1%nat; Some 0%nat; None]
      (<[ "/b" := 0 ]> (pathToHandleIndex gaps)))
    "/a" 1 0%nat 1 _ _ _ _ _).
  - discriminate.
  - reflexivity.
  - reflexivity.
  - reflexivity.
  - reflexivity.
Defined.

End handle_table_more.

(** * Properties of the connection pool *)

Section connection_pool.
Import FilerClient.

Implicit Types (wfs : WFS) (GrpcDial : string → string + ClientConn).
Implicit Types (fn : ClientConn → WFS → outcome (option string * WFS)).

(** With a pooled connection and the lock free, the call is the
    callback on that connection, on the state as it was. *)
Lemma withFilerClient_pooled GrpcDial fn wfs conn :
  grpcClientsLock wfs = false →
  grpcClients wfs !! FilerGrpcAddress wfs = Some conn →
  withFilerClient GrpcDial fn wfs = fn conn wfs.
Proof.
  destruct wfs as [address clients lock log]. simpl. intros -> Hpool.
  unfold withFilerClient, Lock. simpl. by rewrite Hpool.
Qed.

(** X10.  The callback runs outside the lock, on a pooled connection.
    Started with the lock free, [withFilerClient] either fails to dial
    or hands over to the callback in a state in which the lock is free
    again and the pool holds, for the filer's address, the connection
    the callback is given; the address is never changed, and a dial was
    made only if the pool had no connection. *)
Theorem withFilerClient_runs_fn_unlocked GrpcDial fn wfs :
  grpcClientsLock wfs = false →
  (∃ err, grpcClients wfs !! FilerGrpcAddress wfs = None ∧
          GrpcDial (FilerGrpcAddress wfs) = inl err) ∨
  ∃ conn wfs1,
    withFilerClient GrpcDial fn wfs = fn conn wfs1 ∧
    grpcClientsLock wfs1 = false ∧
    FilerGrpcAddress wfs1 = FilerGrpcAddress wfs ∧
    grpcClients wfs1 !! FilerGrpcAddress wfs = Some conn ∧
    (∀ address, address ≠ FilerGrpcAddress wfs →
                grpcClients wfs1 !! address = grpcClients wfs !! address) ∧
    dialled wfs1 =
      match grpcClients wfs !! FilerGrpcAddress wfs with
      | Some _ => dialled wfs
      | None => dialled wfs ++ [FilerGrpcAddress wfs]
      end.
Proof.
  destruct wfs as [address clients lock log]. simpl. intros ->.
  unfold withFilerClient, Lock. simpl.
  destruct (clients !! address) as [existing|] eqn:Hpool.
  - right. eexists existing, _. simpl. split_and!; done.
  - simpl. destruct (GrpcDial address) as [err|conn] eqn:Hdial.
    + left. by exists err.
    + right. eexists conn, _. simpl.
      split; [done|]. split; [done|]. split; [done|].
      split; [apply lookup_insert_eq|]. split; [|done].
      intros a Ha. by apply lookup_insert_ne.
Qed.

Lemma withFilerClient_runs_fn_unlocked_witness :
  (∃ err, grpcClients (fresh "filer:18888") !! "filer:18888" = None ∧
          accepts "filer:18888" = inl err) ∨
  ∃ conn wfs1,
    withFilerClient accepts report (fresh "filer:18888") = report conn wfs1 ∧
    grpcClientsLock wfs1 = false ∧
    FilerGrpcAddress wfs1 = "filer:18888" ∧
    grpcClients wfs1 !! "filer:18888" = Some conn ∧
    (∀ address, address ≠ "filer:18888" →
                grpcClients wfs1 !! address =
                grpcClients (fresh "filer:18888") !! address) ∧
    dialled wfs1 =
      match grpcClients (fresh "filer:18888") !! "filer:18888" with
      | Some _ => dialled (fresh "filer:18888")
      | None => dialled (fresh "filer:18888") ++ ["filer:18888"]
      end.
Proof.
  apply (withFilerClient_runs_fn_unlocked accepts report (fresh "filer:18888")).
  reflexivity.
Defined.

(** X11.  A dial that fails.  With the lock free and no connection in
    the pool, when [util.GrpcDial] fails the callback is not run:
    whatever it is, the call returns the error "fail to dial", with the
    address and the cause in it, the lock is free again, and the pool
    is as it was, so that nothing of the failure is kept. *)
Theorem withFilerClient_dial_failure GrpcDial fn wfs err :
  grpcClientsLock wfs = false →
  grpcClients wfs !! FilerGrpcAddress wfs = None →
  GrpcDial (FilerGrpcAddress wfs) = inl err →
  withFilerClient GrpcDial fn wfs =
    Returns (Some ("fail to dial " +:+ FilerGrpcAddress wfs +:+ ": " +:+ err),
             {| FilerGrpcAddress := FilerGrpcAddress wfs;
                grpcClients := grpcClients wfs;
                grpcClientsLock := false;
                dialled := dialled wfs ++ [FilerGrpcAddress wfs] |}).
Proof.
  destruct wfs as [address clients lock log]. simpl. intros -> Hpool Hdial.
  unfold withFilerClient, Lock. simpl. by rewrite Hpool, Hdial.
Qed.

Lemma withFilerClient_dial_failure_witness :
  withFilerClient refuses report (fresh "filer:18888") =
    Returns (Some "fail to dial filer:18888: connection refused",
             {| FilerGrpcAddress := "filer:18888";
                grpcClients := ∅;
                grpcClientsLock := false;
                dialled := ["filer:18888"] |}).
Proof.
  apply (withFilerClient_dial_failure refuses report (fresh "filer:18888")
           "connection refused"); reflexivity.
Defined.

(** X12.  A callback may call [withFilerClient] itself.  Started with
    the lock free, a call whose callback is another [withFilerClient]
    does not block: it is the same as the inner callback run by one
    call.  The inner call never dials. *)
Theorem withFilerClient_nested GrpcDial GrpcDial' fn wfs :
  grpcClientsLock wfs = false →
  withFilerClient GrpcDial (λ _, withFilerClient GrpcDial' fn) wfs =
  withFilerClient GrpcDial fn wfs.
Proof.
  destruct wfs as [address clients lock log]. simpl. intros ->.
  unfold withFilerClient at 1 3. unfold Lock. simpl.
  destruct (clients !! address) as [existing|] eqn:Hpool; simpl.
  - by apply withFilerClient_pooled.
  - destruct (GrpcDial address) as [err|conn]; simpl; [done|].
    apply withFilerClient_pooled; [done|]. simpl. apply lookup_insert_eq.
Qed.

Lemma withFilerClient_nested_witness :
  withFilerClient accepts (λ _, withFilerClient refuses report)
    (fresh "filer:18888") =
  withFilerClient accepts report (fresh "filer:18888").
Proof.
  apply (withFilerClient_nested accepts refuses report (fresh "filer:18888")).
  reflexivity.
Defined.

(** X13.  One dial is enough.  After a call that ran its callback (one
    that leaves the state alone), the next call, whatever
    [util.GrpcDial] would answer then, dials no more: it runs its
    callback on the connection the first callback was given, in the
    state the first call left. *)
Theorem withFilerClient_dials_once GrpcDial g wfs e wfs1 :
  grpcClientsLock wfs = false →
  withFilerClient GrpcDial (λ conn wfs, mret (g conn, wfs)) wfs =
    Returns (e, wfs1) →
  (∃ err, GrpcDial (FilerGrpcAddress wfs) = inl err ∧
          grpcClients wfs1 = grpcClients wfs) ∨
  ∃ conn, e = g conn ∧
    ∀ GrpcDial' fn, withFilerClient GrpcDial' fn wfs1 = fn conn wfs1.
Proof.
  intros Hlock Hcall.
  destruct (withFilerClient_runs_fn_unlocked GrpcDial
              (λ conn wfs, mret (g conn, wfs)) wfs Hlock)
    as [(err & Hpool & Hdial)|(conn & wfs2 & Heq & Hlock2 & Haddr & Hconn & _)].
  - left. exists err. split; [done|].
    rewrite (withFilerClient_dial_failure _ _ _ err) in Hcall by done.
    by injection Hcall as _ <-.
  - right. exists conn. rewrite Heq in Hcall. injection Hcall as <- <-.
    split; [done|]. intros GrpcDial' fn.
    apply withFilerClient_pooled; [done|]. by rewrite Haddr.
Qed.

Lemma withFilerClient_dials_once_witness :
  (∃ err, accepts "filer:18888" = inl err ∧
          {[ "filer:18888" := 7%nat ]} = grpcClients (fresh "filer:18888")) ∨
  ∃ conn, Some "7" = Some (pretty conn) ∧
    ∀ GrpcDial' fn,
      withFilerClient GrpcDial' fn
        (mkWFS "filer:18888" {[ "filer:18888" := 7%nat ]} false
           ["filer:18888"]) =
      fn conn (mkWFS "filer:18888" {[ "filer:18888" := 7%nat ]} false
                 ["filer:18888"]).
Proof.
  refine (withFilerClient_dials_once accepts (λ conn, Some (pretty conn))
            (fresh "filer:18888") (Some "7")
            (mkWFS "filer:18888" {[ "filer:18888" := 7%nat ]} false
               ["filer:18888"]) _ _); reflexivity.
Defined.

End connection_pool.

(** * Properties of the mount command *)

Section mount_command.
Import Mount.
Import Filer.RangeParser.

Implicit Types (l a b : list ascii) (sep : ascii).

(** *** Strings and lists of bytes *)

Lemma list_ascii_of_string_app (s t : string) :
  String.list_ascii_of_string (s +:+ t) =
  String.list_ascii_of_string s ++ String.list_ascii_of_string t.
Proof. induction s as [|c s IH]; simpl; [done|]. by rewrite IH. Qed.

Lemma string_of_list_ascii_app a b :
  String.string_of_list_ascii (a ++ b) =
  String.string_of_list_ascii a +:+ String.string_of_list_ascii b.
Proof. induction a as [|c a IH]; simpl; [done|]. by rewrite IH. Qed.

(** *** [strings.Split] *)

Lemma split_nonempty sep l : split sep l ≠ [].
Proof.
  destruct l as [|c l]; simpl; [done|].
  case_bool_decide; [done|]. by destruct (split sep l).
Qed.

Lemma split_no_sep sep l : sep ∉ l → split sep l = [l].
Proof.
  induction l as [|c l IH]; simpl; [done|].
  intros [Hc Hl]%not_elem_of_cons.
  rewrite bool_decide_eq_false_2 by done. by rewrite IH.
Qed.

Lemma split_app_sep sep a b :
  sep ∉ a → split sep (a ++ sep :: b) = a :: split sep b.
Proof.
  induction a as [|c a IH]; simpl.
  - intros _. by rewrite bool_decide_eq_true_2.
  - intros [Hc Ha]%not_elem_of_cons.
    rewrite bool_decide_eq_false_2 by done. by rewrite IH.
Qed.

Lemma split_single_inv sep l b : split sep l = [b] → l = b ∧ sep ∉ b.
Proof.
  revert b. induction l as [|c l IH]; intros b; simpl.
  - intros [= <-]. split; [done|]. apply not_elem_of_nil.
  - case_bool_decide as Hc.
    + intros [= _ H]. by apply split_nonempty in H.
    + destruct (split sep l) as [|piece pieces] eqn:Hs;
        [by apply split_nonempty in Hs|].
      intros [= <- ->]. destruct (IH piece eq_refl) as [-> Hn].
      split; [done|]. apply not_elem_of_cons. by split.
Qed.

Lemma split_pair_inv sep l a b :
  split sep l = [a; b] → l = a ++ (sep :: b) ∧ (sep ∉ a) ∧ (sep ∉ b).
Proof.
  revert a. induction l as [|c l IH]; intros a; simpl; [done|].
  case_bool_decide as Hc.
  - intros [= <- [-> Hb]%split_single_inv]. subst c.
    split_and!; [done|apply not_elem_of_nil|done].
  - destruct (split sep l) as [|piece pieces] eqn:Hs; [done|].
    intros [= <- ->]. destruct (IH piece eq_refl) as (-> & Ha & Hb).
    split_and!; [done| |done]. apply not_elem_of_cons. by split.
Qed.

(** *** [strconv.ParseUint] and [%d] *)

Lemma digits_Forall l : ∀ acc n,
  digits acc l = Some n → Forall (λ c, is_digit c = true) l.
Proof.
  induction l as [|c l IH]; intros acc n; simpl; [by constructor|].
  destruct (is_digit c) eqn:Hc; [|done].
  intros H%IH. by constructor.
Qed.

Lemma number_no_colon l n : number l = Some n → ":"%char ∉ l.
Proof.
  intros H Hin. assert (Forall (λ c, is_digit c = true) l) as Hall.
  { destruct l; [done|]. by eapply digits_Forall. }
  rewrite Forall_forall in Hall. by apply Hall in Hin.
Qed.

Lemma ParseUint_no_colon port n :
  ParseUint port = Some n → ":"%char ∉ String.list_ascii_of_string port.
Proof.
  unfold ParseUint. intros H.
  destruct (number _) as [m|] eqn:Hm; [|done]. by eapply number_no_colon.
Qed.

Lemma pretty_N_char_digit d :
  (d < 10)%N →
  is_digit (pretty_N_char d) = true ∧
  Z.of_nat (nat_of_ascii (pretty_N_char d)) - 48 = Z.of_N d.
Proof.
  intros Hd.
  assert (d = 0 ∨ d = 1 ∨ d = 2 ∨ d = 3 ∨ d = 4 ∨ d = 5 ∨ d = 6 ∨ d = 7
          ∨ d = 8 ∨ d = 9)%N as Hcases by lia.
  repeat (destruct Hcases as [->|Hcases]; [by split|]). by subst.
Qed.

(** The digits [pretty] puts in front of [s] read back as the number. *)
Lemma digits_pretty_N_go x : ∀ s acc,
  ∃ k : nat,
    digits acc (String.list_ascii_of_string (pretty_N_go x s)) =
    digits (acc * 10 ^ Z.of_nat k + Z.of_N x) (String.list_ascii_of_string s).
Proof.
  induction (N.lt_wf_0 x) as [x _ IH]. intros s acc.
  destruct (decide (x = 0)%N) as [->|Hx].
  - exists 0%nat. rewrite pretty_N_go_0. f_equal. lia.
  - rewrite pretty_N_go_step by lia.
    destruct (IH (x `div` 10)%N) with
      (s := String (pretty_N_char (x `mod` 10)) s) (acc := acc) as [k ->].
    { apply N.div_lt; lia. }
    exists (S k). simpl.
    destruct (pretty_N_char_digit (x `mod` 10)%N) as [-> ->].
    { apply N.mod_lt. lia. }
    f_equal. rewrite Nat2Z.inj_succ, Z.pow_succ_r by lia.
    rewrite N2Z.inj_div, N2Z.inj_mod.
    pose proof (Z.div_mod (Z.of_N x) 10 ltac:(lia)) as Hdm.
    change (Z.of_N 10) with 10. generalize dependent (10 ^ Z.of_nat k).
    intros. lia.
Qed.

Lemma pretty_N_go_not_empty x s : s ≠ "" → pretty_N_go x s ≠ "".
Proof.
  revert s. induction (N.lt_wf_0 x) as [x _ IH]. intros s Hs.
  destruct (decide (x = 0)%N) as [->|Hx]; [by rewrite pretty_N_go_0|].
  rewrite pretty_N_go_step by lia. apply IH; [apply N.div_lt; lia|done].
Qed.

Lemma number_pretty (p : Z) :
  0 ≤ p → number (String.list_ascii_of_string (pretty p)) = Some p.
Proof.
  intros Hp. destruct p as [|x|x]; [done| |lia].
  change (pretty (Z.pos x)) with (pretty (N.pos x)).
  unfold pretty, pretty_N. rewrite decide_False by done.
  assert (pretty_N_go (N.pos x) "" ≠ "") as Hne.
  { rewrite pretty_N_go_step by lia. by apply pretty_N_go_not_empty. }
  unfold number.
  destruct (String.list_ascii_of_string (pretty_N_go (N.pos x) "")) eqn:Hl.
  { destruct (pretty_N_go (N.pos x) ""); done. }
  rewrite <- Hl. destruct (digits_pretty_N_go (N.pos x) "" 0) as [k ->].
  simpl. f_equal.
Qed.

Lemma ParseUint_pretty (p : Z) :
  0 ≤ p < 2 ^ 64 → ParseUint (pretty p) = Some p.
Proof.
  intros Hp. unfold ParseUint. rewrite number_pretty by lia. simpl.
  by rewrite bool_decide_eq_true_2 by lia.
Qed.

(** *** [parseFilerGrpcAddress] *)

Lemma Split_hostname_port hostname port :
  ":"%char ∉ String.list_ascii_of_string hostname →
  ":"%char ∉ String.list_ascii_of_string port →
  Split (hostname +:+ ":" +:+ port) ":" = [hostname; port].
Proof.
  intros Hh Hp. unfold Split.
  rewrite list_ascii_of_string_app. simpl.
  rewrite split_app_sep, split_no_sep by done. simpl.
  by rewrite !String.string_of_list_ascii_of_string.
Qed.

Lemma Split_pair_inv filer hostname port :
  Split filer ":" = [hostname; port] →
  filer = hostname +:+ ":" +:+ port ∧
  ":"%char ∉ String.list_ascii_of_string hostname.
Proof.
  unfold Split. intros H.
  destruct (split ":" (String.list_ascii_of_string filer))
    as [|a [|b [|c rest]]] eqn:Hs; try done.
  simpl in H. injection H as <- <-.
  apply split_pair_inv in Hs as (Hl & Ha & Hb).
  rewrite String.list_ascii_of_string_of_list_ascii. split; [|done].
  rewrite <- (String.string_of_list_ascii_of_string filer), Hl.
  by rewrite string_of_list_ascii_app.
Qed.

(** The gRPC port [parseFilerGrpcAddress] settles on. *)
Lemma parseFilerGrpcAddress_ok hostname port filerPort optionalGrpcPort :
  ":"%char ∉ String.list_ascii_of_string hostname →
  ParseUint port = Some filerPort →
  parseFilerGrpcAddress (hostname +:+ ":" +:+ port) optionalGrpcPort =
    inr (hostname +:+ ":" +:+
         pretty (if bool_decide (optionalGrpcPort ≠ 0) then optionalGrpcPort
                 else int_add (int_of_uint64 filerPort) 10000)).
Proof.
  intros Hh Hport. unfold parseFilerGrpcAddress.
  rewrite Split_hostname_port by eauto using ParseUint_no_colon.
  by rewrite Hport.
Qed.

(** X14.  What [parseFilerGrpcAddress] accepts, and what it answers.
    It returns an address exactly when the text is a host name without
    a colon, a colon, and a port that is a run of decimal digits below
    2^64; this also when the gRPC port is given.  The address is the
    host name, a colon and the gRPC port: the one given, if it is not
    0, and else the filer's port plus 10000 (as an [int], wrapping
    around). *)
Theorem parseFilerGrpcAddress_accepts filer optionalGrpcPort address :
  parseFilerGrpcAddress filer optionalGrpcPort = inr address ↔
  ∃ hostname port filerPort,
    filer = hostname +:+ ":" +:+ port ∧
    (":"%char ∉ String.list_ascii_of_string hostname) ∧
    ParseUint port = Some filerPort ∧
    address =
      hostname +:+ ":" +:+
      pretty (if bool_decide (optionalGrpcPort ≠ 0) then optionalGrpcPort
              else int_add (int_of_uint64 filerPort) 10000).
Proof.
  split.
  - unfold parseFilerGrpcAddress. intros H.
    destruct (Split filer ":") as [|hostname [|port [|? ?]]] eqn:Hs; try done.
    destruct (ParseUint port) as [filerPort|] eqn:Hport; [|done].
    injection H as <-. apply Split_pair_inv in Hs as [-> Hh].
    by exists hostname, port, filerPort.
  - intros (hostname & port & filerPort & -> & Hh & Hport & ->).
    by apply parseFilerGrpcAddress_ok.
Qed.

(** X15.  Ports as numbers.  For a host name without a colon and the
    filer's port [p] written in decimal: with no gRPC port given, the
    address carries [p + 10000] as long as that is below 2^63; there is
    no upper bound on the port, and from [2^63 - 10000] on the sum
    wraps around, to [p + 10000 - 2^64].  A gRPC port that is given
    (not 0) is taken as it is. *)
Theorem parseFilerGrpcAddress_port hostname p optionalGrpcPort :
  ":"%char ∉ String.list_ascii_of_string hostname →
  0 ≤ p < 2 ^ 64 →
  parseFilerGrpcAddress (hostname +:+ ":" +:+ pretty p) optionalGrpcPort =
    inr (hostname +:+ ":" +:+
         pretty (if bool_decide (optionalGrpcPort ≠ 0) then optionalGrpcPort
                 else if bool_decide (p < 2 ^ 63 - 10000) then p + 10000
                 else p + 10000 - 2 ^ 64)).
Proof.
  intros Hh Hp.
  rewrite (parseFilerGrpcAddress_ok hostname (pretty p) p) by
    auto using ParseUint_pretty.
  do 3 f_equal. case_bool_decide; [done|].
  unfold int_add, int_of_uint64.
  change (2 ^ 64) with 18446744073709551616 in *.
  change (2 ^ 63) with 9223372036854775808 in *.
  repeat case_bool_decide; try lia; f_equal;
    Z.div_mod_to_equations; lia.
Qed.

Lemma parseFilerGrpcAddress_port_witness :
  parseFilerGrpcAddress ("localhost" +:+ ":" +:+ pretty 8888) 0 =
    inr ("localhost" +:+ ":" +:+
         pretty (if bool_decide (0 ≠ 0) then 0
                 else if bool_decide (8888 < 2 ^ 63 - 10000) then 8888 + 10000
                 else 8888 + 10000 - 2 ^ 64)).
Proof.
  apply (parseFilerGrpcAddress_port "localhost" 8888 0).
  - vm_compute. intros H. by repeat (apply elem_of_cons in H as [H|H];
      [discriminate H|]); apply elem_of_nil in H.
  - lia.
Defined.

Lemma length_split sep l :
  length (split sep l) = S (length (filter (λ c, c = sep) l)).
Proof.
  induction l as [|c l IH]; simpl; [done|].
  case_bool_decide as Hc.
  - rewrite filter_cons_True by done. simpl. by rewrite IH.
  - rewrite filter_cons_False by done.
    destruct (split sep l) as [|piece pieces] eqn:Hs;
      [by apply split_nonempty in Hs|].
    by rewrite <- IH.
Qed.

(** X16.  What it rejects.  A text is refused as not being
    [hostname:port] exactly when the number of its colons is not one.
    A text with one colon is refused for its port exactly when the
    part after the colon is not a run of decimal digits below 2^64: an
    empty port, a sign or a space are not accepted, whether or not the
    gRPC port is given. *)
Theorem parseFilerGrpcAddress_rejects filer optionalGrpcPort :
  ((∃ parts, parseFilerGrpcAddress filer optionalGrpcPort =
               inl (NotHostnamePort parts)) ↔
   length (filter (λ c, c = ":"%char) (String.list_ascii_of_string filer))
     ≠ 1%nat) ∧
  (∀ port, parseFilerGrpcAddress filer optionalGrpcPort =
             inl (PortParseError port) ↔
           ∃ hostname,
             filer = hostname +:+ ":" +:+ port ∧
             (":"%char ∉ String.list_ascii_of_string hostname) ∧
             (":"%char ∉ String.list_ascii_of_string port) ∧
             ParseUint port = None).
Proof.
  assert (length (Split filer ":") =
          S (length (filter (λ c, c = ":"%char)
                       (String.list_ascii_of_string filer)))) as Hlen.
  { unfold Split. by rewrite length_fmap, length_split. }
  assert (∀ hostname port, Split filer ":" = [hostname; port] →
            filer = hostname +:+ ":" +:+ port ∧
            (":"%char ∉ String.list_ascii_of_string hostname) ∧
            (":"%char ∉ String.list_ascii_of_string port)) as Hinv.
  { unfold Split. intros hostname port H.
    destruct (split ":" (String.list_ascii_of_string filer))
      as [|a [|b [|c rest]]] eqn:Hs; try done.
    simpl in H. injection H as <- <-.
    apply split_pair_inv in Hs as (Hl & Ha & Hb).
    rewrite !String.list_ascii_of_string_of_list_ascii.
    split; [|done].
    rewrite <- (String.string_of_list_ascii_of_string filer), Hl.
    by rewrite string_of_list_ascii_app. }
  unfold parseFilerGrpcAddress.
  destruct (Split filer ":") as [|hostname [|port [|? ?]]] eqn:Hs;
    simpl in Hlen.
  - lia.
  - split; [split; [lia|eauto]|].
    intros port'. split; [done|].
    intros (hostname' & -> & Hh & Hp & _).
    by rewrite Split_hostname_port in Hs.
  - destruct (Hinv hostname port eq_refl) as (-> & Hh & Hp).
    destruct (ParseUint port) as [filerPort|] eqn:Hport.
    + split; [split; [by intros [? ?]|lia]|].
      intros port'. split; [done|].
      intros (hostname' & Heq & Hh' & Hp' & Hnone).
      rewrite Heq, Split_hostname_port in Hs by done.
      injection Hs as <- <-. congruence.
    + split; [split; [by intros [? ?]|lia]|].
      intros port'. split.
      * intros [= <-]. by exists hostname.
      * intros (hostname' & Heq & Hh' & Hp' & Hnone).
        rewrite Heq, Split_hostname_port in Hs by done.
        by injection Hs as <- <-.
  - split; [split; [lia|eauto]|].
    intros port'. split; [done|].
    intros (hostname' & -> & Hh & Hp & _).
    by rewrite Split_hostname_port in Hs.
Qed.

(** *** [runMount] *)

Local Ltac among H :=
  repeat (apply elem_of_app in H as [H|H]);
  repeat (apply elem_of_cons in H as [H|H]; [try discriminate H|]);
  try (by apply elem_of_nil in H).

(** X17.  Without a mount directory, or with a chunk size limit that is
    not positive, [runMount] returns false and has done nothing but
    print: it did not unmount, mount or serve. *)
Theorem runMount_refuses_options mountOptions fuse :
  dir mountOptions = "" ∨ chunkSizeLimitMB mountOptions ≤ 0 →
  (runMount mountOptions fuse).2 = Return false ∧
  ∀ e, e ∈ (runMount mountOptions fuse).1 → ∃ format, e = Printf format.
Proof.
  intros Hbad. unfold runMount.
  case_bool_decide as Hdir; [|case_bool_decide as Hsize].
  - split; [done|]. intros e H. among H; eauto.
  - split; [done|]. intros e H. among H; eauto.
  - destruct Hbad; [done|lia].
Qed.

Lemma runMount_refuses_options_witness :
  (runMount (options "localhost:8888" "/mnt" 0) (mkFuse None None None)).2 =
    Return false ∧
  ∀ e, e ∈ (runMount (options "localhost:8888" "/mnt" 0)
              (mkFuse None None None)).1 →
       ∃ format, e = Printf format.
Proof.
  apply (runMount_refuses_options (options "localhost:8888" "/mnt" 0)
           (mkFuse None None None)).
  right. simpl. lia.
Defined.

(** X18.  [runMount] returns true exactly when the directory is given,
    the chunk size limit is positive, the mount succeeds, the filer
    address is accepted by [parseFilerGrpcAddress], and no mount error
    is reported once the mount is ready.  Whether [fs.Serve] failed
    plays no part. *)
Theorem runMount_true_iff mountOptions fuse :
  (runMount mountOptions fuse).2 = Return true ↔
  dir mountOptions ≠ "" ∧
  0 < chunkSizeLimitMB mountOptions ∧
  Mount_err fuse = None ∧
  (∃ filerGrpcAddress,
     parseFilerGrpcAddress (filer mountOptions) (filerGrpcPort mountOptions) =
       inr filerGrpcAddress) ∧
  MountError fuse = None.
Proof.
  unfold runMount.
  case_bool_decide as Hdir; [|case_bool_decide as Hsize].
  - simpl. split; [done|]. by intros [? _].
  - simpl. split; [done|]. intros (_ & ? & _). lia.
  - destruct (Mount_err fuse) as [err|]; simpl.
    { split; [done|]. by intros (_ & _ & ? & _). }
    destruct (parseFilerGrpcAddress _ _) as [err|address]; simpl.
    { split; [done|]. by intros (_ & _ & _ & [? ?] & _). }
    destruct (MountError fuse) as [err|]; simpl.
    { split; [done|]. by intros (_ & _ & _ & _ & ?). }
    split; [|done]. intros _. split_and!; [done|lia|done|eauto|done].
Qed.

(** X19.  [fs.Serve] is called at most with the address
    [parseFilerGrpcAddress] made of the filer option, and only after
    the directory was unmounted and mounted afresh, in that order, the
    mount having succeeded. *)
Theorem runMount_serves_parsed_address
    mountOptions fuse address root coll repl ttl limit dc :
  Serve address root coll repl ttl limit dc ∈ (runMount mountOptions fuse).1 →
  parseFilerGrpcAddress (filer mountOptions) (filerGrpcPort mountOptions) =
    inr address ∧
  Mount_err fuse = None ∧
  0 < chunkSizeLimitMB mountOptions ∧
  ∃ rest,
    (runMount mountOptions fuse).1 =
      [Printf version_line; Unmount (dir mountOptions);
       FuseMount (dir mountOptions); OnInterrupt;
       Serve address root coll repl ttl limit dc] ++ rest.
Proof.
  unfold runMount.
  case_bool_decide as Hdir; [|case_bool_decide as Hsize]; simpl.
  - intros H. among H.
  - intros H. among H.
  - destruct (Mount_err fuse) as [err|]; simpl; [intros H; among H|].
    destruct (parseFilerGrpcAddress _ _) as [err|address'] eqn:Hparse; simpl;
      [intros H; among H|].
    intros H. split_and!; [|done|lia|].
    + destruct (Serve_err fuse), (MountError fuse); simpl in H; among H;
        by injection H as ->.
    + destruct (Serve_err fuse), (MountError fuse); simpl in *; among H;
        injection H as -> -> -> -> -> -> ->; eauto.
Qed.

Lemma runMount_serves_parsed_address_witness :
  parseFilerGrpcAddress "localhost:8888" 0 = inr "localhost:18888" ∧
  Mount_err (mkFuse None (Some "EIO") None) = None ∧
  0 < 4 ∧
  ∃ rest,
    (runMount (options "localhost:8888" "/mnt" 4)
       (mkFuse None (Some "EIO") None)).1 =
      [Printf version_line; Unmount "/mnt"; FuseMount "/mnt"; OnInterrupt;
       Serve "localhost:18888" "/" "" "" 0 4 ""] ++ rest.
Proof.
  refine (runMount_serves_parsed_address (options "localhost:8888" "/mnt" 4)
            (mkFuse None (Some "EIO") None)
            "localhost:18888" "/" "" "" 0 4 "" _).
  simpl. rewrite !elem_of_cons. auto 10.
Defined.

End mount_command.

(** * More properties of the read handlers *)

Section read_handlers_more.
Import Filer ReadPath.

Implicit Types (fs : FilerServer) (w : ResponseWriter) (r : Request).
Implicit Types (entry : Entry) (chunk : FileChunk).

Local Ltac among H :=
  repeat (apply elem_of_app in H as [H|H]);
  repeat (apply elem_of_cons in H as [H|H]; [try discriminate H|]);
  try (by apply elem_of_nil in H).

Lemma slice_get_one {A} (s : list A) :
  length s = 1%nat → ∃ x, s = [x] ∧ slice_get s 0 = Ok x.
Proof. destruct s as [|x [|y s]]; try done. intros _. by exists x. Qed.

(** The calls a handler adds are the ones after those [w] came with. *)
Lemma calls_emit e w : calls (emit e w) = calls w ++ [e].
Proof. done. Qed.

(** *** Every way through [handleSingleChunk] *)

Lemma handleSingleChunk_calls fs w r entry chunk :
  Chunks entry = [chunk] →
  match LookupFileId (filer fs) (FileId chunk) with
  | None => handleSingleChunk fs w r entry = Ok (emit (WriteHeader 404) w)
  | Some urlString =>
      if RedirectOnRead (option_ fs) && bool_decide (CipherKey chunk = None)
      then handleSingleChunk fs w r entry =
             Ok (emit (Redirect urlString 302) w)
      else
        match url_Parse (filer fs) urlString with
        | None => handleSingleChunk fs w r entry = Panic
        | Some u =>
            ∃ w', handleSingleChunk fs w r entry = Ok w' ∧
              calls w' = calls w ++
                Do (proxy_request u r) ::
                match util_Do (filer fs) (proxy_request u r) with
                | inl do_err => [writeJsonError 500 do_err]
                | inr resp =>
                    match CipherKey chunk with
                    | None =>
                        [WriteHeader (StatusCode resp); Copy (resp_Body resp)]
                    | Some key =>
                        match ReadAll (resp_Body resp) with
                        | None => [WriteHeader 404]
                        | Some encryptedData =>
                            match Decrypt (filer fs) encryptedData key with
                            | None => [WriteHeader 404]
                            | Some decryptedData =>
                                [WriteHeader (StatusCode resp);
                                 Write decryptedData]
                            end
                        end
                    end ++ [Close (resp_Body resp)]
                end
        end
  end.
Proof.
  intros Hchunks.
  destruct (LookupFileId (filer fs) (FileId chunk)) as [urlString|]
    eqn:Hlookup;
    [|by apply (handleSingleChunk_unresolved _ _ _ _ chunk [])].
  destruct (RedirectOnRead (option_ fs) && bool_decide (CipherKey chunk = None))
    eqn:Hproxy.
  { apply andb_true_iff in Hproxy as [Hredirect Hkey].
    apply bool_decide_eq_true_1 in Hkey.
    by apply (handleSingleChunk_redirect _ _ _ _ chunk []). }
  destruct (url_Parse (filer fs) urlString) as [u|] eqn:Hparse;
    [|by apply (handleSingleChunk_unparsed _ _ _ _ chunk [] urlString)].
  destruct (CipherKey chunk) as [key|] eqn:Hkey.
  - apply (handleSingleChunk_encrypted fs w r entry chunk key urlString u);
      done.
  - rewrite (handleSingleChunk_proxy _ _ _ _ chunk [] urlString u)
      by (try done; by rewrite Hkey).
    simpl. destruct (util_Do _ _) as [do_err|resp].
    + eexists. split; [done|]. simpl. by rewrite <- (assoc_L (++)).
    + rewrite Hkey. simpl. eexists. split; [done|]. simpl.
      rewrite calls_proxy_headers. simpl.
      by rewrite <- !(assoc_L (++)).
Qed.

(** *** Every way through [handleMultipleChunks] *)

Lemma handleMultipleChunks_calls fs w r entry :
  ∃ w', handleMultipleChunks fs w r entry = Ok w' ∧
    calls w' = calls w ++
      let rangeReq := Get "Range" (Header r) in
      let streamed offset size :=
        StreamContent (Chunks entry) offset size ::
        match stream_error (filer fs) (Chunks entry) offset size with
        | Some err => [Error err 500]
        | None => []
        end in
      if bool_decide (rangeReq = "") then streamed 0 (totalSize entry)
      else
        match parseRange (filer fs) rangeReq (totalSize entry) with
        | inl err => [Error err 416]
        | inr ranges =>
            if bool_decide (sumRangesSize ranges > totalSize entry) then []
            else
              match ranges with
              | [] => []
              | [ra] => WriteHeader 206 :: streamed (start ra) (length_ ra)
              | _ =>
                  if existsb (λ ra, bool_decide (start ra > totalSize entry))
                       ranges
                  then [Error "Out of Range" 416]
                  else
                    WriteHeader 206 ::
                    CopyN ranges (mimeType fs entry)
                      (rangesMIMESize (filer fs) ranges (mimeType fs entry)
                         (totalSize entry)) ::
                    if copy_fails (filer fs)
                    then [Error "Internal Error" 500] else []
              end
        end.
Proof.
  unfold handleMultipleChunks, writeContent.
  fold (mimeType fs entry). fold (totalSize entry). simpl.
  case_bool_decide as Hrange.
  { destruct (stream_error _ _ _ _); (eexists; split; [done|]); simpl;
      repeat case_bool_decide; simpl; by rewrite <- ?(assoc_L (++)). }
  destruct (parseRange _ _ _) as [err|ranges].
  { eexists; split; [done|]. simpl. by repeat case_bool_decide. }
  case_bool_decide as Hsum.
  { eexists; split; [done|]. simpl. repeat case_bool_decide; simpl;
      by rewrite ?(right_id_L [] (++)). }
  destruct ranges as [|ra [|ra' ranges]]; simpl.
  - eexists; split; [done|]. simpl. repeat case_bool_decide; simpl;
      by rewrite ?(right_id_L [] (++)).
  - destruct (stream_error _ _ _ _); (eexists; split; [done|]); simpl;
      repeat case_bool_decide; simpl; by rewrite <- ?(assoc_L (++)).
  - destruct (_ || _); [|destruct (copy_fails _)];
      (eexists; split; [done|]); simpl;
      repeat case_bool_decide; simpl; by rewrite <- ?(assoc_L (++)).
Qed.

(** *** Every way through [GetOrHeadHandler] *)

Lemma GetOrHeadHandler_found fs w r isGetMethod entry :
  FindEntry (filer fs) (lookup_path r) = inr entry →
  GetOrHeadHandler fs w r isGetMethod =
    if IsDirectory entry then
      if DisableDirListing (option_ fs) then Ok (emit (WriteHeader 405) w)
      else Ok (emit listDirectoryHandler w)
    else if HasSuffix (Path (URL r)) "/" then Ok (emit (WriteHeader 404) w)
    else if bool_decide (length (Chunks entry) = 0%nat)
    then Ok (emit (WriteHeader 204) w)
    else
      let w := set_header "Accept-Ranges" "bytes" w in
      if bool_decide (Method r = "HEAD") then
        let w :=
          set_header "Content-Length" (pretty (totalSize entry)) w in
        let w :=
          set_header "Last-Modified"
            (TimeFormat (filer fs) (Mtime (Attr entry))) w in
        let w :=
          if bool_decide (Mime (Attr entry) ≠ "")
          then set_header "Content-Type" (Mime (Attr entry)) w else w in
        Ok {| w_Header := setEtag (filer fs) (ETag (filer fs) (Chunks entry))
                            (w_Header w);
              calls := calls w |}
      else if bool_decide (length (Chunks entry) = 1%nat)
      then handleSingleChunk fs w r entry
      else handleMultipleChunks fs w r entry.
Proof.
  unfold GetOrHeadHandler, lookup_path. intros ->. done.
Qed.

(** The one way the handler does not return: the resolved URL of a
    proxied chunk that [url.Parse] refuses. *)
Lemma GetOrHeadHandler_panics fs w r isGetMethod :
  GetOrHeadHandler fs w r isGetMethod = Panic ↔
  ∃ entry chunk urlString,
    FindEntry (filer fs) (lookup_path r) = inr entry ∧
    IsDirectory entry = false ∧
    HasSuffix (Path (URL r)) "/" = false ∧
    Chunks entry = [chunk] ∧
    Method r ≠ "HEAD" ∧
    LookupFileId (filer fs) (FileId chunk) = Some urlString ∧
    RedirectOnRead (option_ fs) && bool_decide (CipherKey chunk = None) =
      false ∧
    url_Parse (filer fs) urlString = None.
Proof.
  split.
  - destruct (FindEntry (filer fs) (lookup_path r)) as [err|entry] eqn:Hfind.
    { by rewrite (GetOrHeadHandler_not_resolved _ _ _ _ _ Hfind). }
    rewrite (GetOrHeadHandler_found _ _ _ _ _ Hfind).
    destruct (IsDirectory entry) eqn:Hdir;
      [by destruct (DisableDirListing _)|].
    destruct (HasSuffix _ _) eqn:Hslash; [done|].
    case_bool_decide as Hnone; [done|].
    simpl. case_bool_decide as Hhead; [done|].
    case_bool_decide as Hone.
    + destruct (slice_get_one _ Hone) as (chunk & Hchunks & _).
      pose proof (handleSingleChunk_calls fs
                    (set_header "Accept-Ranges" "bytes" w) r entry chunk
                    Hchunks) as Hsingle.
      destruct (LookupFileId _ _) as [urlString|] eqn:Hlookup;
        [|by rewrite Hsingle].
      destruct (RedirectOnRead _ && _) eqn:Hproxy; [by rewrite Hsingle|].
      destruct (url_Parse _ _) as [u|] eqn:Hparse.
      * destruct Hsingle as (w' & -> & _). done.
      * intros _. by exists entry, chunk, urlString.
    + destruct (handleMultipleChunks_calls fs
                  (set_header "Accept-Ranges" "bytes" w) r entry)
        as (w' & -> & _). done.
  - intros (entry & chunk & urlString & Hfind & Hdir & Hslash & Hchunks &
            Hhead & Hlookup & Hproxy & Hparse).
    rewrite (GetOrHeadHandler_found _ _ _ _ _ Hfind), Hdir, Hslash, Hchunks.
    simpl. rewrite bool_decide_eq_false_2 by done.
    by apply (handleSingleChunk_unparsed _ _ _ _ chunk [] urlString).
Qed.

(** The statuses of the calls of a run that returns. *)
Lemma GetOrHeadHandler_returns_statuses fs w r isGetMethod w' :
  GetOrHeadHandler fs w r isGetMethod = Ok w' →
  ∃ events,
    calls w' = calls w ++ events ∧
    ∀ e, e ∈ events →
      match e with
      | WriteHeader code =>
          own_status code ∨
          ∃ request resp,
            Do request ∈ events ∧
            util_Do (filer fs) request = inr resp ∧
            code = StatusCode resp
      | Redirect _ code => code = 302 ∧ RedirectOnRead (option_ fs) = true
      | Error _ code => code = 416 ∨ code = 500
      | writeJsonError code _ => code = 500
      | _ => True
      end.
Proof.
  unfold own_status.
  destruct (FindEntry (filer fs) (lookup_path r)) as [err|entry] eqn:Hfind.
  { rewrite (GetOrHeadHandler_not_resolved _ _ _ _ _ Hfind).
    intros [= <-]. eexists. split; [done|].
    intros e H. repeat case_bool_decide; among H; subst e; auto 10. }
  rewrite (GetOrHeadHandler_found _ _ _ _ _ Hfind).
  destruct (IsDirectory entry).
  { destruct (DisableDirListing _); intros [= <-]; (eexists; split; [done|]);
      intros e H; among H; subst e; auto 10. }
  destruct (HasSuffix _ _).
  { intros [= <-]. eexists. split; [done|].
    intros e H; among H; subst e; auto 10. }
  case_bool_decide as Hnone.
  { intros [= <-]. eexists. split; [done|].
    intros e H; among H; subst e; auto 10. }
  simpl. case_bool_decide as Hhead.
  { intros [= <-]. exists []. split.
    - simpl. case_bool_decide; simpl; by rewrite (right_id_L [] (++)).
    - intros e H. among H. }
  case_bool_decide as Hone.
  - destruct (slice_get_one _ Hone) as (chunk & Hchunks & _).
    pose proof (handleSingleChunk_calls fs
                  (set_header "Accept-Ranges" "bytes" w) r entry chunk
                  Hchunks) as Hsingle.
    destruct (LookupFileId _ _) as [urlString|].
    2:{ rewrite Hsingle. intros [= <-]. eexists. split; [done|].
        intros e H; among H; subst e; auto 10. }
    destruct (RedirectOnRead (option_ fs)) eqn:Hredirect; simpl in Hsingle.
    + case_bool_decide as Hkey; simpl in Hsingle.
      { rewrite Hsingle. intros [= <-]. eexists. split; [done|].
        intros e H. among H. by subst e. }
      destruct (url_Parse _ _) as [u|]; [|by rewrite Hsingle].
      destruct Hsingle as (w1 & -> & Hcalls). intros [= <-].
      eexists. split; [exact Hcalls|]. clear Hcalls.
      destruct (util_Do _ _) as [do_err|resp] eqn:Hdo;
        [intros e H; among H; by subst e|].
      destruct (CipherKey chunk) as [key|]; [|done].
      destruct (ReadAll _) as [encryptedData|];
        [destruct (Decrypt _ _ _)|];
        intros e H; among H; subst e; auto 10;
        right; eexists _, resp; (split; [apply list_elem_of_here|]);
        by split.
    + destruct (url_Parse _ _) as [u|]; [|by rewrite Hsingle].
      destruct Hsingle as (w1 & -> & Hcalls). intros [= <-].
      eexists. split; [exact Hcalls|]. clear Hcalls.
      destruct (util_Do _ _) as [do_err|resp] eqn:Hdo;
        [intros e H; among H; by subst e|].
      destruct (CipherKey chunk) as [key|];
        [destruct (ReadAll _) as [encryptedData|];
         [destruct (Decrypt _ _ _)|]|];
        intros e H; among H; subst e; auto 10;
        right; eexists _, resp; (split; [apply list_elem_of_here|]);
        by split.
  - destruct (handleMultipleChunks_calls fs
                (set_header "Accept-Ranges" "bytes" w) r entry)
      as (w1 & -> & Hcalls). intros [= <-].
    eexists. split; [exact Hcalls|]. clear Hcalls.
    simpl. case_bool_decide as Hrange.
    { destruct (stream_error _ _ _ _); intros e H; among H; subst e; auto. }
    destruct (parseRange _ _ _) as [err|ranges];
      [intros e H; among H; subst e; auto|].
    case_bool_decide as Hsum; [intros e H; among H|].
    destruct ranges as [|ra [|ra' ranges]]; [intros e H; among H|..].
    + destruct (stream_error _ _ _ _); intros e H; among H; subst e; auto 10.
    + destruct (existsb _ _); [|destruct (copy_fails _)];
        intros e H; among H; subst e; auto 10.
Qed.

(** X20.  [GetOrHeadHandler] panics in one case and in no other: the
    request is not a HEAD, asks without a trailing slash for a file of
    exactly one chunk, the location of the chunk resolves, no redirect
    is made (redirect-on-read is off or the chunk has a cipher key),
    and [url.Parse] refuses the resolved URL, so that [u] is nil when
    [u.Query()] is called.  In every other case it returns: no index it
    uses is out of range.  Of the calls of a run that returns, a
    [WriteHeader] carries 204, 206, 404, 405 or 500, or else the status
    of the response to the proxied fetch it made; a redirect is a 302
    and is made only with redirect-on-read; [http.Error] is called with
    416 or 500 and [writeJsonError] with 500. *)
Theorem GetOrHeadHandler_statuses fs w r isGetMethod :
  (GetOrHeadHandler fs w r isGetMethod = Panic ↔
   ∃ entry chunk urlString,
     FindEntry (filer fs) (lookup_path r) = inr entry ∧
     IsDirectory entry = false ∧
     HasSuffix (Path (URL r)) "/" = false ∧
     Chunks entry = [chunk] ∧
     Method r ≠ "HEAD" ∧
     LookupFileId (filer fs) (FileId chunk) = Some urlString ∧
     RedirectOnRead (option_ fs) && bool_decide (CipherKey chunk = None) =
       false ∧
     url_Parse (filer fs) urlString = None) ∧
  ∀ w', GetOrHeadHandler fs w r isGetMethod = Ok w' →
    ∃ events,
      calls w' = calls w ++ events ∧
      ∀ e, e ∈ events →
        match e with
        | WriteHeader code =>
            own_status code ∨
            ∃ request resp,
              Do request ∈ events ∧
              util_Do (filer fs) request = inr resp ∧
              code = StatusCode resp
        | Redirect _ code => code = 302 ∧ RedirectOnRead (option_ fs) = true
        | Error _ code => code = 416 ∨ code = 500
        | writeJsonError code _ => code = 500
        | _ => True
        end.
Proof.
  split.
  - apply GetOrHeadHandler_panics.
  - apply GetOrHeadHandler_returns_statuses.
Qed.

Lemma GetOrHeadHandler_statuses_witness :
  GetOrHeadHandler garbled Demo.w0 (Demo.request "GET" "/plain" ∅ ∅) true =
    Panic ∧
  ∀ w', GetOrHeadHandler (Demo.server true) Demo.w0
          (Demo.request "GET" "/plain" ∅ ∅) true = Ok w' →
    ∃ events,
      calls w' = calls Demo.w0 ++ events ∧
      ∀ e, e ∈ events →
        match e with
        | WriteHeader code =>
            own_status code ∨
            ∃ request resp,
              Do request ∈ events ∧
              util_Do (filer (Demo.server true)) request = inr resp ∧
              code = StatusCode resp
        | Redirect _ code =>
            code = 302 ∧ RedirectOnRead (option_ (Demo.server true)) = true
        | Error _ code => code = 416 ∨ code = 500
        | writeJsonError code _ => code = 500
        | _ => True
        end.
Proof.
  split.
  - apply (proj1 (GetOrHeadHandler_statuses garbled Demo.w0
                    (Demo.request "GET" "/plain" ∅ ∅) true)).
    exists Demo.plain_file, (Demo.chunk "3,01" 0 5 None),
           (String "010"%char "3,01").
    split_and!; try reflexivity. discriminate.
  - apply (proj2 (GetOrHeadHandler_statuses (Demo.server true) Demo.w0
                    (Demo.request "GET" "/plain" ∅ ∅) true)).
Defined.

(** X21.  A HEAD request is answered from the metadata alone.  For a
    request whose method is HEAD the handler returns and makes at most
    one call: [WriteHeader] with 204, 404, 405 or 500, or the directory
    listing; no fetch, stream or copy of a chunk is among its calls.
    And what it returns is the same for any other server with the same
    options, metadata store, [ETag], [setEtag] and time format: what
    the master client, [url.Parse], the volume servers or the cipher
    would answer has no part in it. *)
Theorem HEAD_never_fetches fs w r isGetMethod :
  Method r = "HEAD" →
  (∃ w' events,
     GetOrHeadHandler fs w r isGetMethod = Ok w' ∧
     calls w' = calls w ++ events ∧
     (events = [] ∨ events = [listDirectoryHandler] ∨
      ∃ code, events = [WriteHeader code] ∧
              (code = 204 ∨ code = 404 ∨ code = 405 ∨ code = 500))) ∧
  ∀ fs',
    option_ fs' = option_ fs →
    FindEntry (filer fs') = FindEntry (filer fs) →
    ETag (filer fs') = ETag (filer fs) →
    setEtag (filer fs') = setEtag (filer fs) →
    TimeFormat (filer fs') = TimeFormat (filer fs) →
    GetOrHeadHandler fs' w r isGetMethod = GetOrHeadHandler fs w r isGetMethod.
Proof.
  intros Hhead. split.
  - destruct (FindEntry (filer fs) (lookup_path r)) as [err|entry] eqn:Hfind.
    { rewrite (GetOrHeadHandler_not_resolved _ _ _ _ _ Hfind).
      eexists _, _. split; [done|]. split; [done|].
      repeat case_bool_decide; eauto 10. }
    rewrite (GetOrHeadHandler_found _ _ _ _ _ Hfind).
    destruct (IsDirectory entry).
    { destruct (DisableDirListing _); (eexists _, _; split; [done|]);
        (split; [done|]); eauto 10. }
    destruct (HasSuffix _ _).
    { eexists _, _. split; [done|]. split; [done|]. eauto 10. }
    case_bool_decide as Hnone.
    { eexists _, _. split; [done|]. split; [done|]. eauto 10. }
    simpl. rewrite bool_decide_eq_true_2 by done.
    eexists _, []. split; [done|]. split; [|by left].
    simpl. case_bool_decide; simpl; by rewrite (right_id_L [] (++)).
  - intros fs' Hoption Hstore HETag HsetEtag Hformat.
    destruct (FindEntry (filer fs) (lookup_path r)) as [err|entry] eqn:Hfind.
    { rewrite (GetOrHeadHandler_not_resolved fs _ _ _ _ Hfind).
      apply GetOrHeadHandler_not_resolved. by rewrite Hstore. }
    rewrite (GetOrHeadHandler_found fs _ _ _ _ Hfind).
    rewrite (GetOrHeadHandler_found fs' _ _ _ entry)
      by (by rewrite Hstore).
    rewrite Hoption, HETag, HsetEtag, Hformat. simpl.
    by rewrite !(bool_decide_eq_true_2 (Method r = "HEAD")) by done.
Qed.

Lemma HEAD_never_fetches_witness :
  (∃ w' events,
     GetOrHeadHandler (Demo.server true) Demo.w0
       (Demo.request "HEAD" "/big" ∅ ∅) false = Ok w' ∧
     calls w' = calls Demo.w0 ++ events ∧
     (events = [] ∨ events = [listDirectoryHandler] ∨
      ∃ code, events = [WriteHeader code] ∧
              (code = 204 ∨ code = 404 ∨ code = 405 ∨ code = 500))) ∧
  GetOrHeadHandler (detached true) Demo.w0
    (Demo.request "HEAD" "/big" ∅ ∅) false =
  GetOrHeadHandler (Demo.server true) Demo.w0
    (Demo.request "HEAD" "/big" ∅ ∅) false.
Proof.
  destruct (HEAD_never_fetches (Demo.server true) Demo.w0
              (Demo.request "HEAD" "/big" ∅ ∅) false eq_refl) as [Hcalls Hsame].
  split; [exact Hcalls|]. apply Hsame; reflexivity.
Defined.

(** X22.  The headers of a HEAD response.  For a file with chunks,
    asked for by HEAD without a trailing slash, the header map handed
    to [setEtag] has [Accept-Ranges: bytes] and the total size as
    [Content-Length]; its [Content-Type] is the entry's mime type if it
    has one and else is left as it was: the extension of the name is
    not tried, unlike for a GET of several chunks. *)
Theorem HEAD_headers fs w r isGetMethod entry :
  FindEntry (filer fs) (lookup_path r) = inr entry →
  IsDirectory entry = false →
  HasSuffix (Path (URL r)) "/" = false →
  Chunks entry ≠ [] →
  Method r = "HEAD" →
  ∃ h,
    GetOrHeadHandler fs w r isGetMethod =
      Ok {| w_Header := setEtag (filer fs) (ETag (filer fs) (Chunks entry)) h;
            calls := calls w |} ∧
    h !! "Accept-Ranges" = Some ["bytes"] ∧
    h !! "Content-Length" = Some [pretty (totalSize entry)] ∧
    h !! "Last-Modified" =
      Some [TimeFormat (filer fs) (Mtime (Attr entry))] ∧
    h !! "Content-Type" =
      (if bool_decide (Mime (Attr entry) = "")
       then w_Header w !! "Content-Type" else Some [Mime (Attr entry)]).
Proof.
  intros Hfind Hdir Hslash Hchunks Hhead.
  rewrite (GetOrHeadHandler_found _ _ _ _ _ Hfind), Hdir, Hslash.
  rewrite bool_decide_eq_false_2 by (by destruct (Chunks entry)).
  simpl. rewrite bool_decide_eq_true_2 by done.
  destruct (decide (Mime (Attr entry) = "")) as [Hmime|Hmime].
  - rewrite (bool_decide_eq_false_2 (_ ≠ _)) by (by intros []).
    rewrite (bool_decide_eq_true_2 (_ = _)) by done.
    eexists. split; [done|]. simpl. unfold Set_.
    split_and!; by simplify_map_eq.
  - rewrite (bool_decide_eq_true_2 (_ ≠ _)) by done.
    rewrite (bool_decide_eq_false_2 (_ = _)) by done.
    eexists. split; [done|]. simpl. unfold Set_.
    split_and!; by simplify_map_eq.
Qed.

Lemma HEAD_headers_witness :
  ∃ h,
    GetOrHeadHandler (Demo.server true) Demo.w0
      (Demo.request "HEAD" "/big" ∅ ∅) false =
      Ok {| w_Header :=
              setEtag (filer (Demo.server true))
                (ETag (filer (Demo.server true)) (Chunks Demo.big_file)) h;
            calls := calls Demo.w0 |} ∧
    h !! "Accept-Ranges" = Some ["bytes"] ∧
    h !! "Content-Length" = Some [pretty (totalSize Demo.big_file)] ∧
    h !! "Last-Modified" =
      Some [TimeFormat (filer (Demo.server true))
              (Mtime (Attr Demo.big_file))] ∧
    h !! "Content-Type" =
      (if bool_decide (Mime (Attr Demo.big_file) = "")
       then w_Header Demo.w0 !! "Content-Type"
       else Some [Mime (Attr Demo.big_file)]).
Proof.
  apply (HEAD_headers (Demo.server true) Demo.w0
           (Demo.request "HEAD" "/big" ∅ ∅) false Demo.big_file);
    [reflexivity|reflexivity|reflexivity|discriminate|reflexivity].
Defined.

(** *** What [handleMultipleChunks] asks to be streamed *)

Lemma existsb_false {A} (f : A → bool) (l : list A) :
  existsb f l = false → Forall (λ x, f x = false) l.
Proof.
  induction l as [|x l IH]; simpl; [by constructor|].
  intros [Hx Hl]%orb_false_iff. constructor; auto.
Qed.

(** X23.  [handleMultipleChunks] never asks for more than the file
    has.  It always returns.  A window it has streamed is a window of
    the entry's chunks, of at most the total size in length.  Ranges it
    sends as a multipart body are two or more, sum up to at most the
    total size, and none starts past the total size; a multipart body
    and a streamed window are never part of the same response. *)
Theorem handleMultipleChunks_within_size fs w r entry :
  ∃ w' events,
    handleMultipleChunks fs w r entry = Ok w' ∧
    calls w' = calls w ++ events ∧
    (∀ chunks offset size,
       StreamContent chunks offset size ∈ events →
       chunks = Chunks entry ∧ size ≤ totalSize entry ∧
       ∀ ranges mime n, CopyN ranges mime n ∉ events) ∧
    (∀ ranges mime n,
       CopyN ranges mime n ∈ events →
       (2 ≤ length ranges)%nat ∧
       sumRangesSize ranges ≤ totalSize entry ∧
       Forall (λ ra, start ra ≤ totalSize entry) ranges).
Proof.
  destruct (handleMultipleChunks_calls fs w r entry) as (w' & Hw' & Hcalls).
  eexists w', _. split; [done|]. split; [exact Hcalls|]. clear Hw' Hcalls.
  simpl. case_bool_decide as Hrange.
  { split.
    - intros chunks offset size H.
      assert (chunks = Chunks entry ∧ size = totalSize entry) as [-> ->]
        by (destruct (stream_error _ _ _ _); among H; by injection H).
      split_and!; [done|lia|].
      intros ??? H'. destruct (stream_error _ _ _ _); among H'.
    - intros ??? H. destruct (stream_error _ _ _ _); among H. }
  destruct (parseRange _ _ _) as [err|ranges];
    [split; intros ??? H; among H|].
  case_bool_decide as Hsum; [split; intros ??? H; among H|].
  destruct ranges as [|ra [|ra' ranges]]; [split; intros ??? H; among H|..].
  - split.
    + intros chunks offset size H.
      assert (chunks = Chunks entry ∧ size = length_ ra) as [-> ->]
        by (destruct (stream_error _ _ _ _); among H; by injection H).
      split_and!; [done|simpl in Hsum; lia|].
      intros ??? H'. destruct (stream_error _ _ _ _); among H'.
    + intros ??? H. destruct (stream_error _ _ _ _); among H.
  - destruct (existsb _ _) eqn:Hstarts; [split; intros ??? H; among H|].
    split.
    + intros ??? H. destruct (copy_fails _); among H.
    + intros ranges' mime n H.
      assert (ranges' = ra :: ra' :: ranges) as ->
        by (destruct (copy_fails _); among H; by injection H).
      split_and!; [simpl; lia|lia|].
      apply existsb_false in Hstarts.
      eapply Forall_impl; [exact Hstarts|]. simpl.
      intros x Hx%bool_decide_eq_false. lia.
Qed.

(** *** What the client gets from a proxied chunk *)

Lemma copied_headers_lookup (h from : Values) key :
  map_fold (λ k v h, <[k := v]> h) h from !! key =
    match from !! key with
    | Some v => Some v
    | None => h !! key
    end.
Proof.
  revert key.
  apply (map_fold_weak_ind
    (λ (acc m : Values), ∀ key,
       acc !! key = match m !! key with
                    | Some v => Some v
                    | None => h !! key
                    end)).
  - intros key. by rewrite lookup_empty.
  - intros k v m acc Hk IH key. destruct (decide (k = key)) as [->|Hne].
    + by rewrite !lookup_insert_eq.
    + rewrite !lookup_insert_ne by done. apply IH.
Qed.

Lemma proxy_headers_lookup w resp entry key :
  w_Header (proxy_headers w resp entry) !! key =
    if bool_decide (key = "Content-Type" ∧ Mime (Attr entry) ≠ "")
    then Some [Mime (Attr entry)]
    else match resp_Header resp !! key with
         | Some v => Some v
         | None => w_Header w !! key
         end.
Proof.
  unfold proxy_headers, set_header, Set_. simpl.
  destruct (decide (Mime (Attr entry) = "")) as [Hmime|Hmime].
  - rewrite (bool_decide_eq_false_2 (_ ≠ _)) by (by intros []).
    rewrite bool_decide_eq_false_2 by (by intros [_ []]).
    simpl. apply copied_headers_lookup.
  - rewrite (bool_decide_eq_true_2 (_ ≠ _)) by done. simpl.
    destruct (decide (key = "Content-Type")) as [->|Hkey].
    + rewrite bool_decide_eq_true_2 by done. apply lookup_insert_eq.
    + rewrite bool_decide_eq_false_2 by (by intros [? _]).
      rewrite lookup_insert_ne by done. apply copied_headers_lookup.
Qed.

(** X24.  A plain chunk, proxied.  With redirect-on-read off, for a
    file of one chunk without cipher key whose URL resolves and is
    parsed and whose fetch is answered, the handler makes the fetch,
    writes the status
    of the answer, copies its body and closes it.  The headers of the
    answer replace those the writer had under the same keys, and the
    entry's mime type, if it has one, replaces the [Content-Type] of
    the answer. *)
Theorem plain_chunk_is_passed_through fs w r entry chunk urlString u resp :
  Chunks entry = [chunk] →
  CipherKey chunk = None →
  RedirectOnRead (option_ fs) = false →
  LookupFileId (filer fs) (FileId chunk) = Some urlString →
  url_Parse (filer fs) urlString = Some u →
  util_Do (filer fs) (proxy_request u r) = inr resp →
  ∃ w', handleSingleChunk fs w r entry = Ok w' ∧
    calls w' = calls w ++ [Do (proxy_request u r);
                           WriteHeader (StatusCode resp);
                           Copy (resp_Body resp);
                           Close (resp_Body resp)] ∧
    ∀ key, w_Header w' !! key =
      if bool_decide (key = "Content-Type" ∧ Mime (Attr entry) ≠ "")
      then Some [Mime (Attr entry)]
      else match resp_Header resp !! key with
           | Some v => Some v
           | None => w_Header w !! key
           end.
Proof.
  intros Hchunks Hkey Hredirect Hlookup Hparse Hdo.
  rewrite (handleSingleChunk_proxy _ _ _ _ chunk [] urlString u)
    by (try done; by rewrite Hredirect).
  simpl. rewrite Hdo, Hkey. simpl. eexists. split; [done|]. split.
  - simpl. rewrite calls_proxy_headers. simpl.
    by rewrite <- !(assoc_L (++)).
  - intros key. simpl. by rewrite proxy_headers_lookup.
Qed.

Lemma plain_chunk_is_passed_through_witness :
  ∃ w', handleSingleChunk (answering true) Demo.w0
          (Demo.request "GET" "/picture" ∅ ∅) picture = Ok w' ∧
    calls w' = calls Demo.w0 ++
      [Do (proxy_request (mkURL "http://127.0.0.1:8080/3,05" ∅)
             (Demo.request "GET" "/picture" ∅ ∅));
       WriteHeader 200;
       Copy (mkBody ["h"; "e"; "l"; "l"; "o"]%byte false);
       Close (mkBody ["h"; "e"; "l"; "l"; "o"]%byte false)] ∧
    ∀ key, w_Header w' !! key =
      if bool_decide (key = "Content-Type" ∧ Mime (Attr picture) ≠ "")
      then Some [Mime (Attr picture)]
      else match volume_headers !! key with
           | Some v => Some v
           | None => w_Header Demo.w0 !! key
           end.
Proof.
  refine (plain_chunk_is_passed_through (answering true) Demo.w0
            (Demo.request "GET" "/picture" ∅ ∅) picture
            (Demo.chunk "3,05" 0 5 None)
            "http://127.0.0.1:8080/3,05"
            (mkURL "http://127.0.0.1:8080/3,05" ∅)
            (mkResponse 200 volume_headers
               (mkBody ["h"; "e"; "l"; "l"; "o"]%byte false))
            _ _ _ _ _ _);
    reflexivity.
Defined.

(** X25.  A chunk with a cipher key, decrypted.  When the URL of the
    chunk is resolved and parsed and the fetched body is read and
    decrypted, the handler writes the status of the answer
    and then the decrypted bytes, and the [Content-Length] it sends is
    the size of the chunk, whatever [Content-Length] the answer
    carried. *)
Theorem decrypted_chunk_Content_Length
    fs w r entry chunk key urlString u resp encryptedData decryptedData :
  Chunks entry = [chunk] →
  CipherKey chunk = Some key →
  LookupFileId (filer fs) (FileId chunk) = Some urlString →
  url_Parse (filer fs) urlString = Some u →
  util_Do (filer fs) (proxy_request u r) = inr resp →
  ReadAll (resp_Body resp) = Some encryptedData →
  Decrypt (filer fs) encryptedData key = Some decryptedData →
  ∃ w', handleSingleChunk fs w r entry = Ok w' ∧
    calls w' = calls w ++ [Do (proxy_request u r);
                           WriteHeader (StatusCode resp);
                           Write decryptedData;
                           Close (resp_Body resp)] ∧
    w_Header w' !! "Content-Length" = Some [pretty (Size chunk)] ∧
    ∀ key', key' ≠ "Content-Length" →
      w_Header w' !! key' =
        if bool_decide (key' = "Content-Type" ∧ Mime (Attr entry) ≠ "")
        then Some [Mime (Attr entry)]
        else match resp_Header resp !! key' with
             | Some v => Some v
             | None => w_Header w !! key'
             end.
Proof.
  intros Hchunks Hkey Hlookup Hparse Hdo Hread Hdecrypt.
  rewrite (handleSingleChunk_proxy _ _ _ _ chunk [] urlString u)
    by (try done; rewrite Hkey; apply andb_false_r).
  simpl. rewrite Hdo, Hkey. simpl.
  rewrite (writeEncryptedChunk_cases _ _ _ _ chunk [] key) by done.
  rewrite Hread, Hdecrypt. simpl. eexists. split; [done|]. split_and!.
  - simpl. rewrite calls_proxy_headers. simpl.
    by rewrite <- !(assoc_L (++)).
  - simpl. unfold Set_. apply lookup_insert_eq.
  - intros key' Hne. simpl. unfold Set_.
    rewrite lookup_insert_ne by done. by rewrite proxy_headers_lookup.
Qed.

Lemma decrypted_chunk_Content_Length_witness :
  ∃ w', handleSingleChunk (answering true) Demo.w0
          (Demo.request "GET" "/secret" ∅ ∅) Demo.secret_file = Ok w' ∧
    calls w' = calls Demo.w0 ++
      [Do (proxy_request (mkURL "http://127.0.0.1:8080/3,02" ∅)
             (Demo.request "GET" "/secret" ∅ ∅));
       WriteHeader 200;
       Write ["h"; "e"; "l"; "l"; "o"]%byte;
       Close (mkBody ["h"; "e"; "l"; "l"; "o"]%byte false)] ∧
    w_Header w' !! "Content-Length" = Some [pretty 5] ∧
    ∀ key', key' ≠ "Content-Length" →
      w_Header w' !! key' =
        if bool_decide (key' = "Content-Type" ∧
                        Mime (Attr Demo.secret_file) ≠ "")
        then Some [Mime (Attr Demo.secret_file)]
        else match volume_headers !! key' with
             | Some v => Some v
             | None => w_Header Demo.w0 !! key'
             end.
Proof.
  refine (decrypted_chunk_Content_Length (answering true) Demo.w0
            (Demo.request "GET" "/secret" ∅ ∅) Demo.secret_file
            (Demo.chunk "3,02" 0 5 (Some ["k"%byte])) ["k"%byte]
            "http://127.0.0.1:8080/3,02"
            (mkURL "http://127.0.0.1:8080/3,02" ∅)
            (mkResponse 200 volume_headers
               (mkBody ["h"; "e"; "l"; "l"; "o"]%byte false))
            ["h"; "e"; "l"; "l"; "o"]%byte ["h"; "e"; "l"; "l"; "o"]%byte
            _ _ _ _ _ _ _);
    reflexivity.
Defined.

(** X26.  The proxied fetch.  When a file of one chunk is not
    redirected and its URL resolves and is parsed, the handler makes
    one fetch and no second one.  The fetch has the method, headers,
    body and host of the original request and goes to the parsed URL;
    in its query each key has the values of the parsed URL first and
    the values of the original request after them, none dropped or
    replaced.  (When [url.Parse] refuses the resolved URL there is no
    fetch: the handler panics.) *)
Theorem proxied_fetch_forwards_request fs w r entry chunk urlString :
  Chunks entry = [chunk] →
  LookupFileId (filer fs) (FileId chunk) = Some urlString →
  RedirectOnRead (option_ fs) && bool_decide (CipherKey chunk = None) = false →
  (url_Parse (filer fs) urlString = None →
   handleSingleChunk fs w r entry = Panic) ∧
  ∀ u, url_Parse (filer fs) urlString = Some u →
    ∃ w' request rest,
      handleSingleChunk fs w r entry = Ok w' ∧
      calls w' = calls w ++ Do request :: rest ∧
      (∀ request', Do request' ∉ rest) ∧
      Method request = Method r ∧
      Header request = Header r ∧
      Body request = Body r ∧
      Host request = Host r ∧
      Path (URL request) = Path u ∧
      ∀ key,
        RawQuery (URL request) !! key =
          match RawQuery (URL r) !! key with
          | Some (value :: values) =>
              Some (default [] (RawQuery u !! key) ++ value :: values)
          | _ => RawQuery u !! key
          end.
Proof.
  intros Hchunks Hlookup Hproxy.
  pose proof (handleSingleChunk_calls fs w r entry chunk Hchunks) as Hsingle.
  rewrite Hlookup, Hproxy in Hsingle. split.
  - intros Hparse. by rewrite Hparse in Hsingle.
  - intros u Hparse. rewrite Hparse in Hsingle.
    destruct Hsingle as (w' & Hw' & Hcalls).
    eexists w', (proxy_request u r), _.
    split; [done|]. split; [exact Hcalls|]. clear Hcalls.
    split_and!; try done.
    + intros request' H.
      destruct (util_Do _ _) as [do_err|resp]; [among H|].
      destruct (CipherKey chunk) as [key|];
        [destruct (ReadAll _) as [encryptedData|];
         [destruct (Decrypt _ _ _)|]|]; among H.
    + intros key. simpl. apply proxy_query_lookup.
Qed.

Lemma proxied_fetch_forwards_request_witness :
  ∃ w' request rest,
    handleSingleChunk (answering true) Demo.w0
      (Demo.request "GET" "/picture" {[ "width" := ["100"] ]} ∅) picture =
      Ok w' ∧
    calls w' = calls Demo.w0 ++ Do request :: rest ∧
    (∀ request', Do request' ∉ rest) ∧
    Method request = "GET" ∧
    Header request = ∅ ∧
    Body request = mkBody [] false ∧
    Host request = "filer" ∧
    Path (URL request) = "http://127.0.0.1:8080/3,05" ∧
    ∀ key,
      RawQuery (URL request) !! key =
        match ({[ "width" := ["100"] ]} : Values) !! key with
        | Some (value :: values) =>
            Some (default [] ((∅ : Values) !! key) ++ value :: values)
        | _ => (∅ : Values) !! key
        end.
Proof.
  refine (proj2 (proxied_fetch_forwards_request (answering true) Demo.w0
                   (Demo.request "GET" "/picture" {[ "width" := ["100"] ]} ∅)
                   picture (Demo.chunk "3,05" 0 5 None)
                   "http://127.0.0.1:8080/3,05" _ _ _)
                (mkURL "http://127.0.0.1:8080/3,05" ∅) _); reflexivity.
Defined.

(** *** Paths with a trailing slash *)

Lemma length_append_slash (path : string) :
  String.length (path +:+ "/") = S (String.length path).
Proof. induction path as [|c path IH]; simpl; [done|]. by rewrite IH. Qed.

Lemma substring_append (path s : string) :
  String.substring 0 (String.length path) (path +:+ s) = path.
Proof.
  induction path as [|c path IH]; simpl.
  - by destruct s.
  - by rewrite IH.
Qed.

Lemma HasSuffix_append (path s : string) : HasSuffix (path +:+ s) s = true.
Proof.
  unfold HasSuffix. apply bool_decide_eq_true_2.
  exists (String.list_ascii_of_string path).
  induction path as [|c path IH]; simpl; [done|]. by rewrite IH.
Qed.

Lemma lookup_path_trailing_slash r path :
  Path (URL r) = path +:+ "/" → path ≠ "" → lookup_path r = path.
Proof.
  intros Hr Hpath. unfold lookup_path. rewrite Hr, HasSuffix_append.
  rewrite length_append_slash.
  rewrite bool_decide_eq_true_2 by (destruct path; [done|simpl; lia]).
  simpl. rewrite Nat.sub_0_r. apply substring_append.
Qed.

(** X27.  A trailing slash asks for a directory.  For a request path
    that is a non-empty path followed by a slash, the handler looks the
    path up without that one slash; if the entry found is a directory
    it is listed (or refused with 405 when listing is disabled), and if
    it is a file the answer is 404, whatever the file holds. *)
Theorem trailing_slash_is_for_directories fs w r isGetMethod path entry :
  Path (URL r) = path +:+ "/" →
  path ≠ "" →
  FindEntry (filer fs) path = inr entry →
  lookup_path r = path ∧
  GetOrHeadHandler fs w r isGetMethod =
    Ok (emit (if IsDirectory entry then
                if DisableDirListing (option_ fs) then WriteHeader 405
                else listDirectoryHandler
              else WriteHeader 404) w).
Proof.
  intros Hr Hpath Hfind.
  pose proof (lookup_path_trailing_slash r path Hr Hpath) as Hlookup.
  split; [done|]. rewrite <- Hlookup in Hfind.
  rewrite (GetOrHeadHandler_found _ _ _ _ _ Hfind).
  rewrite Hr, HasSuffix_append.
  by destruct (IsDirectory entry), (DisableDirListing (option_ fs)).
Qed.

Lemma trailing_slash_is_for_directories_witness :
  lookup_path (Demo.request "GET" ("/big" +:+ "/") ∅ ∅) = "/big" ∧
  GetOrHeadHandler (Demo.server false) Demo.w0
    (Demo.request "GET" ("/big" +:+ "/") ∅ ∅) true =
    Ok (emit (if IsDirectory Demo.big_file then
                if DisableDirListing (option_ (Demo.server false))
                then WriteHeader 405 else listDirectoryHandler
              else WriteHeader 404) Demo.w0).
Proof.
  apply (trailing_slash_is_for_directories (Demo.server false) Demo.w0
           (Demo.request "GET" ("/big" +:+ "/") ∅ ∅) true "/big"
           Demo.big_file); [reflexivity|discriminate|reflexivity].
Defined.

End read_handlers_more.
